(** * nightoutCoding: the fetch / extract / retry engine

    A shallow embedding of the two e-mail scraping engines of the
    repository and of the properties their specification states:

    - [EmailScraper] (server/src/scrapeEmailsFromSite.ts): the class with
      [processSite] (fetch with retries), [extractEmails], [chunkArray],
      [scrapeEmails] and the module-level singleton [getEmailScraper];
    - the batched URL processor (the file with [safeFetch],
      [scrapeEmailsFromUrl], [runWithConcurrency] and [processUrlBatch]),
      in [Module Batch].

    Conventions.  JavaScript numbers that the code uses as counters are
    integers of [Z]; array indices that only grow from 0 are [nat].
    JavaScript strings are modelled by [string] (8-bit characters), with
    [toLowerCase] acting on the ASCII letters.  The network is an oracle:
    what the n-th [fetch] of a URL settles to.  Asynchronous code is
    modelled by explicit state passing; where several promises are pending
    at once the order in which they settle is a parameter (a schedule). *)

From Stdlib Require Import ZArith List String Ascii Bool Lia Arith Permutation.
From Stdlib Require Import DecimalString.
Import ListNotations.
Local Open Scope string_scope.
Local Open Scope list_scope.
Local Open Scope Z_scope.

(** ** JavaScript string and array primitives used by the code *)

Module Js.

Definition lower_char (c : ascii) : ascii :=
  let n := nat_of_ascii c in
  if andb (Nat.leb 65 n) (Nat.leb n 90) then ascii_of_nat (n + 32) else c.

(** [s.toLowerCase()] *)
Fixpoint toLowerCase (s : string) : string :=
  match s with
  | EmptyString => EmptyString
  | String c s' => String (lower_char c) (toLowerCase s')
  end.

(** [s.startsWith(p)] *)
Definition startsWith (s p : string) : bool := String.prefix p s.

(** [s.includes(p)]: [p] occurs in [s] at some position. *)
Fixpoint includes (s p : string) : bool :=
  if String.prefix p s then true
  else match s with
       | EmptyString => false
       | String _ s' => includes s' p
       end.

(** [s.endsWith(p)] *)
Definition endsWith (s p : string) : bool :=
  let ls := String.length s in
  let lp := String.length p in
  andb (Nat.leb lp ls) (String.eqb (String.substring (ls - lp) lp s) p).

(** Truthiness of a string: only the empty string is falsy. *)
Definition truthy (s : string) : bool :=
  match s with EmptyString => false | _ => true end.

(** [[...new Set(l)]]: members in insertion order, the first occurrence of
    each value kept. *)
Fixpoint set_insert_all (seen : list string) (l : list string) : list string :=
  match l with
  | [] => []
  | x :: l' =>
      if existsb (String.eqb x) seen then set_insert_all seen l'
      else x :: set_insert_all (x :: seen) l'
  end.

Definition spread_set (l : list string) : list string := set_insert_all [] l.

(** [array.slice(s, e)], with JavaScript's treatment of negative and
    out-of-range bounds. *)
Definition slice {A} (l : list A) (s e : Z) : list A :=
  let len := Z.of_nat (List.length l) in
  let k := if s <? 0 then Z.max (len + s) 0 else Z.min s len in
  let f := if e <? 0 then Z.max (len + e) 0 else Z.min e len in
  firstn (Z.to_nat (f - k)) (skipn (Z.to_nat k) l).

(** Decimal rendering of an integer inside a template literal. *)
Definition number_to_string (z : Z) : string :=
  NilZero.string_of_int (Z.to_int z).

(** An [Error] value: only [name] and [message] are ever read. *)
Record Error := mkError { name : string; message : string }.

End Js.

(** ** The regular expression engine, for the shape of [EMAIL_REGEX]

    A pattern is a sequence of character classes, each with a greedy
    quantifier [{min,}] or [{min,max}].  Matching is by backtracking, longest
    repetition first, as a JavaScript engine does it. *)

Module Regex.

Record item := Rep { cls : ascii -> bool; rmin : nat; rmax : option nat }.

Definition in_range (lo hi : string) (c : ascii) : bool :=
  match lo, hi with
  | String l _, String h _ =>
      andb (Nat.leb (nat_of_ascii l) (nat_of_ascii c))
           (Nat.leb (nat_of_ascii c) (nat_of_ascii h))
  | _, _ => false
  end.

Definition one_of (set : string) (c : ascii) : bool :=
  existsb (Ascii.eqb c) (list_ascii_of_string set).

(** Greedy repetition of one class followed by the continuation [k]:
    [n] characters are still mandatory, at most [m] more are allowed
    ([None]: no bound).  The result is the text left after the whole
    match. *)
Fixpoint rep (c : ascii -> bool) (n : nat) (m : option nat)
         (k : string -> option string) (s : string) : option string :=
  let more_allowed := match m with Some 0%nat => false | _ => true end in
  match s with
  | String x s' =>
      if andb (c x) more_allowed then
        match rep c (Nat.pred n) (option_map Nat.pred m) k s' with
        | Some r => Some r
        | None => match n with O => k s | _ => None end
        end
      else match n with O => k s | _ => None end
  | EmptyString => match n with O => k s | _ => None end
  end.

Fixpoint match_items (r : list item) (k : string -> option string)
  : string -> option string :=
  match r with
  | [] => k
  | Rep c n m :: r' => rep c n m (match_items r' k)
  end.

(** The match of [r] anchored at the start of [s], if any. *)
Definition match_here (r : list item) (s : string) : option string :=
  match match_items r Some s with
  | Some rest =>
      Some (String.substring 0 (String.length s - String.length rest) s)
  | None => None
  end.

(** [s.match(r)] for a global pattern: every match, left to right, the
    search resuming where the previous match ended.  [skip] counts the
    characters still covered by the previous match. *)
Fixpoint scan (r : list item) (skip : nat) (s : string) : list string :=
  match s with
  | EmptyString => []
  | String _ s' =>
      match skip with
      | S k => scan r k s'
      | O =>
          match match_here r s with
          | Some m => m :: scan r (Nat.pred (String.length m)) s'
          | None => scan r 0 s'
          end
      end
  end.

Definition match_all (r : list item) (s : string) : list string := scan r 0 s.

End Regex.

(** [/([a-zA-Z0-9._%+-]+@[a-zA-Z0-9.-]+\.[a-zA-Z]{2,})/g] *)
Definition EMAIL_REGEX : list Regex.item :=
  let alpha c := orb (Regex.in_range "a" "z" c) (Regex.in_range "A" "Z" c) in
  let alnum c := orb (alpha c) (Regex.in_range "0" "9" c) in
  [ Regex.Rep (fun c => orb (alnum c) (Regex.one_of "._%+-" c)) 1 None;
    Regex.Rep (Regex.one_of "@") 1 (Some 1%nat);
    Regex.Rep (fun c => orb (alnum c) (Regex.one_of ".-" c)) 1 None;
    Regex.Rep (Regex.one_of ".") 1 (Some 1%nat);
    Regex.Rep alpha 2 None ].

(** ** EmailScraper (server/src/scrapeEmailsFromSite.ts) *)

(** What one [fetch] settles to.  [why] records the cause of a rejection; the
    code never looks at it (it only reads the error's message), the
    specification does. *)
Inductive TextRead :=
| TextOk (body : string)
| TextFails (e : Js.Error).

Inductive RejectKind := DeadlineAbort | CancelAbort | NetworkFailure.

Inductive FetchSettled :=
| Responds (status : Z) (text : TextRead)
| Rejects (why : RejectKind) (e : Js.Error).

(** [response.ok] *)
Definition response_ok (status : Z) : bool :=
  andb (200 <=? status) (status <=? 299).

(** The specification's classification of an attempt. *)
Inductive FetchOutcome := Success | HttpError | Timeout | NetworkError | Cancelled.

Definition classify (o : FetchSettled) : FetchOutcome :=
  match o with
  | Responds status text =>
      if response_ok status then
        match text with TextOk _ => Success | TextFails _ => NetworkError end
      else HttpError
  | Rejects DeadlineAbort _ => Timeout
  | Rejects CancelAbort _ => Cancelled
  | Rejects NetworkFailure _ => NetworkError
  end.

(** Observable effects of a run, in order. *)
Inductive Event :=
| EvFetch (url : string)
| EvSleep (ms : Z).

Definition is_fetch (e : Event) : bool :=
  match e with EvFetch _ => true | EvSleep _ => false end.

Definition fetch_count (t : list Event) : nat := List.length (filter is_fetch t).

Module Scraper.

Definition EMAIL_EXCLUSIONS : list string :=
  [ ".png"; ".jpg"; ".gif"; ".jpeg"; ".webp";
    "example.com"; "domain.com"; "yourdomain";
    "@example"; "@test"; "@sample";
    "email@"; "user@" ].

(** [EmailScraperConfig]: every field optional. *)
Record EmailScraperConfig := mkOptions {
  opt_concurrency : option Z;
  opt_timeout : option Z;
  opt_maxRetries : option Z;
  opt_retryDelay : option Z;
  opt_excludePatterns : option (list string);
  opt_userAgent : option string
}.

Definition no_options : EmailScraperConfig :=
  mkOptions None None None None None None.

(** [Required<EmailScraperConfig>] *)
Record Config := mkConfig {
  concurrency : Z;
  timeout : Z;
  maxRetries : Z;
  retryDelay : Z;
  excludePatterns : list string;
  userAgent : string
}.

Record ScrapingResult := mkResult {
  url : string;
  emails : list string;
  success : bool;
  error : option string
}.

(** [x || d] on an optional number: [undefined] and [0] are falsy. *)
Definition num_or (x : option Z) (d : Z) : Z :=
  match x with
  | Some v => if v =? 0 then d else v
  | None => d
  end.

Definition str_or (x : option string) (d : string) : string :=
  match x with
  | Some v => if Js.truthy v then v else d
  | None => d
  end.

Definition list_or {A} (x : option (list A)) (d : list A) : list A :=
  match x with Some v => v | None => d end.

(** An instance: the resolved configuration and the identity of its
    current [AbortController]. *)
Record EmailScraper := mkScraper { config : Config; controller : nat }.

(** [constructor(config = {})] *)
Definition new_EmailScraper (c : EmailScraperConfig) : EmailScraper :=
  mkScraper
    (mkConfig
       (num_or (opt_concurrency c) 10)
       (num_or (opt_timeout c) 10000)
       (num_or (opt_maxRetries c) 2)
       (num_or (opt_retryDelay c) 1000)
       (EMAIL_EXCLUSIONS ++ list_or (opt_excludePatterns c) [])
       (str_or (opt_userAgent c) "Mozilla/5.0 (compatible; EmailScraper/1.0)"))
    0.

(** [cancel()]: abort, then arm a fresh controller. *)
Definition cancel (self : EmailScraper) : EmailScraper :=
  mkScraper (config self) (S (controller self)).

(** The filter callback of [extractEmails]: the [for] loop over the
    exclusion patterns returns [false] at the first pattern found. *)
Fixpoint excluded_by (patterns : list string) (email : string) : bool :=
  match patterns with
  | [] => false
  | pattern :: rest =>
      if Js.includes (Js.toLowerCase email) (Js.toLowerCase pattern) then true
      else excluded_by rest email
  end.

Definition keep_email (self : EmailScraper) (email : string) : bool :=
  if negb (Js.includes email "@") then false
  else negb (excluded_by (excludePatterns (config self)) email).

Definition extractEmails (self : EmailScraper) (html : string) : list string :=
  let matches := Regex.match_all EMAIL_REGEX html in
  filter (keep_email self) (Js.spread_set matches).

(** The [try] block of [processSite] for one settled fetch: the value it
    returns, or the error it throws. *)
Definition attempt (self : EmailScraper) (url : string) (o : FetchSettled)
  : ScrapingResult + Js.Error :=
  match o with
  | Rejects _ e => inr e
  | Responds status text =>
      if negb (response_ok status) then
        inr (Js.mkError "Error" ("HTTP error " ++ Js.number_to_string status)%string)
      else
        match text with
        | TextFails e => inr e
        | TextOk html => inl (mkResult url (extractEmails self html) true None)
        end
  end.

(** [error.message || 'Unknown error'] *)
Definition message_or_unknown (e : Js.Error) : string :=
  if Js.truthy (Js.message e) then Js.message e else "Unknown error".

(** The [while] loop of [processSite].  [fetch n] is what the [n]-th call
    of [fetchWithTimeout] for this target settles to ([fetchWithTimeout] only
    arms the timer and combines the abort signals: it settles as its [fetch]
    does, an abort by either signal being a rejection); [calls] counts the
    calls made so far.  [None]: the fuel ran out. *)
Fixpoint processSite_loop (fuel : nat) (self : EmailScraper)
         (fetch : nat -> FetchSettled) (url : string)
         (attempts : Z) (calls : nat) (trace : list Event)
  : option (ScrapingResult * list Event) :=
  match fuel with
  | O => None
  | S fuel' =>
      if attempts <=? maxRetries (config self) then
        let trace := trace ++ [EvFetch url] in
        match attempt self url (fetch calls) with
        | inl result => Some (result, trace)
        | inr err =>
            let attempts := attempts + 1 in
            if attempts >? maxRetries (config self) then
              Some (mkResult url [] false (Some (message_or_unknown err)), trace)
            else
              processSite_loop fuel' self fetch url attempts (S calls)
                               (trace ++ [EvSleep (retryDelay (config self))])
        end
      else
        Some (mkResult url [] false (Some "Maximum retries exceeded"), trace)
  end.

Definition processSite (self : EmailScraper) (fetch : nat -> FetchSettled)
           (url : string) : option (ScrapingResult * list Event) :=
  processSite_loop (S (Z.to_nat (maxRetries (config self) + 1)))
                   self fetch url 0 0%nat [].

(** [chunkArray]: the [for] loop, with fuel.  [None]: the fuel ran out. *)
Fixpoint chunk_loop {A} (fuel : nat) (array : list A) (size : Z) (i : Z)
         (chunks : list (list A)) : option (list (list A)) :=
  if i <? Z.of_nat (List.length array) then
    match fuel with
    | O => None
    | S fuel' =>
        chunk_loop fuel' array size (i + size)
                   (chunks ++ [Js.slice array i (i + size)])
    end
  else Some chunks.

Definition chunkArray {A} (array : list A) (size : Z) : option (list (list A)) :=
  chunk_loop (List.length array) array size 0 [].

Record Site := mkSite { title : string; link : string }.

(** The network seen by [scrapeEmails]: per URL, what its successive
    fetches settle to. *)
Definition Net := string -> nat -> FetchSettled.

(** State of a running [scrapeEmails]: the shared [results] array, the
    sites of the current batch whose [processSite] promise is still
    pending, the batches not started yet, and the value returned once the
    loop is over. *)
Record ScrapeState := mkScrape {
  results : list ScrapingResult;
  pending : list Site;
  batches : list (list Site);
  returned : option (list ScrapingResult)
}.

(** Top of the [for ... of batches] loop: the next batch is mapped to its
    promises (all its [processSite] calls start); [Promise.all] of an empty
    batch resolves at once. *)
Fixpoint next_batch (results : list ScrapingResult) (batches : list (list Site))
  : ScrapeState :=
  match batches with
  | [] => mkScrape results [] [] (Some results)
  | [] :: rest => next_batch results rest
  | batch :: rest => mkScrape results batch rest None
  end.

Definition remove_at {A} (p : nat) (l : list A) : list A :=
  firstn p l ++ skipn (S p) l.

(** One promise settles.  Which one is the scheduler's [choice], taken
    modulo the number of pending promises.  The [then] callback of the
    settled [processSite] promise pushes the result; when it was the last
    of the batch, [Promise.all] resolves and the loop goes on.  A
    [processSite] that never returns stays pending. *)
Definition settle (self : EmailScraper) (net : Net) (choice : nat)
           (st : ScrapeState) : ScrapeState :=
  let p := (choice mod List.length (pending st))%nat in
  match nth_error (pending st) p with
  | None => st
  | Some site =>
      match processSite self (net (link site)) (link site) with
      | None => st
      | Some (result, _) =>
          let results := results st ++ [result] in
          match remove_at p (pending st) with
          | [] => next_batch results (batches st)
          | others => mkScrape results others (batches st) None
          end
      end
  end.

(** [scrapeEmails(sites)] up to its first suspension. *)
Definition scrapeEmails_start (self : EmailScraper) (sites : list Site)
  : option ScrapeState :=
  option_map (next_batch []) (chunkArray sites (concurrency (config self))).

(** A run under a schedule: one choice per settlement. *)
Fixpoint run (self : EmailScraper) (net : Net) (schedule : list nat)
         (st : ScrapeState) : ScrapeState :=
  match schedule with
  | [] => st
  | choice :: schedule' => run self net schedule' (settle self net choice st)
  end.

(** [scrapeEmails(sites)]: one settlement per site ends the run. *)
Definition scrapeEmails (self : EmailScraper) (net : Net) (schedule : list nat)
           (sites : list Site) : option (list ScrapingResult) :=
  match scrapeEmails_start self sites with
  | None => None
  | Some st => returned (run self net schedule st)
  end.



End Scraper.

(** ** The batched URL processor *)

Module Batch.

Record LinkState := mkLink { title : string; link : string }.

Record ScrapedResult := mkScraped {
  r_title : string;
  r_link : string;
  emails : list string
}.

(** The network seen by this module: what the fetch of a URL settles to. *)
Definition Net := string -> FetchSettled.

(** [safeFetch]: the response, or [null] when the race of [fetch] against
    the timer rejects (every error is caught and logged). *)
Definition safeFetch (net : Net) (url : string) : option (Z * TextRead) :=
  match net url with
  | Responds status text => Some (status, text)
  | Rejects _ _ => None
  end.

Definition extractEmails (text : string) : list string :=
  let matches := Regex.match_all EMAIL_REGEX text in
  let filtered :=
    filter (fun email =>
              andb (Js.includes email "@")
                   (andb (negb (Js.endsWith email ".png"))
                         (negb (Js.endsWith email ".jpg"))))
           matches in
  Js.spread_set filtered.

(** [scrapeEmailsFromUrl]: the e-mails and the fetches made.  The call of
    the metadata scraper on the text already read has its result and its
    errors discarded, and is left out. *)
Definition scrapeEmailsFromUrl (net : Net) (url : string)
  : list string * list Event :=
  if orb (negb (Js.truthy url)) (negb (Js.startsWith url "http")) then ([], [])
  else
    match safeFetch net url with
    | None => ([], [EvFetch url])
    | Some (status, text) =>
        if negb (response_ok status) then ([], [EvFetch url])
        else
          match text with
          | TextFails _ => ([], [EvFetch url])
          | TextOk htmlText => (extractEmails htmlText, [EvFetch url])
          end
    end.

Definition fetchEmails (net : Net) (linkState : LinkState)
  : list string * list Event :=
  scrapeEmailsFromUrl net (link linkState).

(** What a call of the handler settles to. *)
Inductive Settled (R : Type) :=
| Fulfilled (r : R)
| Thrown (e : Js.Error).
Arguments Fulfilled {R} r.
Arguments Thrown {R} e.

Section Runner.
Context {T R : Type}.
Variable items : list T.
Variable handler : T -> Settled R.

(** The variables captured by [runNext], the workers suspended at an
    [await] (by their [currentIndex], oldest first), and the value
    [resolve] was called with. *)
Record RunState := mkRun {
  results : list R;
  activeCount : Z;
  index : nat;
  pending : list nat;
  resolved : option (list R)
}.

Definition init : RunState := mkRun [] 0 0 [] None.

(** [resolve(results)]: only the first call settles the promise. *)
Definition resolve (st : RunState) : RunState :=
  match resolved st with
  | Some _ => st
  | None => mkRun (results st) (activeCount st) (index st) (pending st)
                  (Some (results st))
  end.

(** [runNext()] up to its first [await].  The random pause before the
    handler is called is a matter of timing only and part of the suspension. *)
Definition runNext (st : RunState) : RunState :=
  if (List.length items <=? index st)%nat then
    if activeCount st =? 0 then resolve st else st
  else
    mkRun (results st) (activeCount st + 1) (S (index st))
          (pending st ++ [index st]) (resolved st).

(** The rest of [runNext] for the worker [currentIndex], from the moment
    its handler has settled: push or log, then the [finally] block.  A
    worker is started only for an index below [items.length], so that the
    item exists. *)
Definition resume (currentIndex : nat) (others : list nat) (st : RunState)
  : RunState :=
  let results :=
    match nth_error items currentIndex with
    | Some item =>
        match handler item with
        | Fulfilled result => results st ++ [result]
        | Thrown _ => results st
        end
    | None => results st
    end in
  runNext (mkRun results (activeCount st - 1) (index st) others (resolved st)).

(** One worker settles: the scheduler's [choice], modulo the number of
    suspended workers. *)
Definition settle (choice : nat) (st : RunState) : RunState :=
  let p := (choice mod List.length (pending st))%nat in
  match nth_error (pending st) p with
  | None => st
  | Some currentIndex =>
      resume currentIndex (Scraper.remove_at p (pending st)) st
  end.

(** The executor of the promise: the initial batch of workers. *)
Definition start (limit : Z) : RunState :=
  let initialWorkers := Z.min limit (Z.of_nat (List.length items)) in
  Nat.iter (Z.to_nat initialWorkers) runNext init.

Fixpoint run (schedule : list nat) (st : RunState) : RunState :=
  match schedule with
  | [] => st
  | choice :: schedule' => run schedule' (settle choice st)
  end.

(** The first [n] choices of a scheduler. *)
Definition choices (choose : nat -> nat) (n : nat) : list nat :=
  map choose (seq 0 n).

(** [runWithConcurrency(items, handler, limit)]: the value the promise
    resolves with; [None] when it stays pending.  One settlement per item
    is all that can happen. *)
Definition runWithConcurrency (limit : Z) (choose : nat -> nat)
  : option (list R) :=
  resolved (run (choices choose (List.length items)) (start limit)).

End Runner.

Record Options := mkOptions {
  batchSize : option Z;
  concurrency : option Z;
  delayBetweenBatches : option Z
}.

(** A destructuring default: it applies to [undefined] only. *)
Definition default (x : option Z) (d : Z) : Z :=
  match x with Some v => v | None => d end.

(** What [processUrlBatch] does at the level of batches. *)
Inductive Step :=
| RunBatch (batch : list LinkState)
| Idle (ms : Z).

(** The handler [processUrlBatch] gives to the runner. *)
Definition worker (net : Net) (item : LinkState) : Settled ScrapedResult :=
  Fulfilled (mkScraped (title item) (link item) (fst (fetchEmails net item))).

Definition has_emails (result : ScrapedResult) : bool :=
  (0 <? List.length (emails result))%nat.

(** The [for] loop of [processUrlBatch], with fuel.  [choose i] schedules
    the runner of the batch that starts at [i].  [None]: the loop does not
    get to its end (the fuel ran out, or a runner's promise stays
    pending).  Nothing in the [try] block throws (the runner's promise has no
    way to reject and the worker's [fetchEmails] catches every error), so the
    [catch] block is left out, as are the console output and the optional
    dump of the report to a file. *)
Fixpoint batch_loop (fuel : nat) (net : Net) (choose : Z -> nat -> nat)
         (links : list LinkState) (batchSize concurrency delay : Z)
         (i : Z) (allResults : list ScrapedResult) (trace : list Step)
  : option (list ScrapedResult * list Step) :=
  if i <? Z.of_nat (List.length links) then
    match fuel with
    | O => None
    | S fuel' =>
        let batch := Js.slice links i (i + batchSize) in
        match runWithConcurrency batch (worker net) concurrency (choose i) with
        | None => None
        | Some batchResults =>
            let allResults := allResults ++ filter has_emails batchResults in
            let trace := trace ++ [RunBatch batch] in
            let trace :=
              if i + batchSize <? Z.of_nat (List.length links)
              then trace ++ [Idle delay] else trace in
            batch_loop fuel' net choose links batchSize concurrency delay
                       (i + batchSize) allResults trace
        end
    end
  else Some (allResults, trace).

Definition processUrlBatch (net : Net) (choose : Z -> nat -> nat)
           (links : list LinkState) (options : Options)
  : option (list ScrapedResult * list Step) :=
  batch_loop (List.length links) net choose links
             (default (batchSize options) 50)
             (default (concurrency options) 10)
             (default (delayBetweenBatches options) 3000)
             0 [] [].

End Batch.

(** ** Vocabulary of the specification, used to state the properties *)

(** The trace of [k] attempts on [url]: a fetch, then a pause and a fetch
    for each retry. *)
Fixpoint retries (url : string) (delay : Z) (k : nat) : list Event :=
  match k with
  | O => []
  | S k' => EvSleep delay :: EvFetch url :: retries url delay k'
  end.

Definition attempts_trace (url : string) (delay : Z) (k : nat) : list Event :=
  match k with
  | O => []
  | S k' => EvFetch url :: retries url delay k'
  end.

(** The sentence "an attempt ending in an HTTP error status or in
    cancellation is terminal": no fetch is made after such an attempt. *)
Definition terminal_on_http_error_or_cancel
           (self : Scraper.EmailScraper) (fetch : nat -> FetchSettled)
           (url : string) : Prop :=
  forall n result trace,
    classify (fetch n) = HttpError \/ classify (fetch n) = Cancelled ->
    Scraper.processSite self fetch url = Some (result, trace) ->
    (fetch_count trace <= S n)%nat /\ Scraper.success result = false.

(** Equality of two strings under case-insensitive comparison. *)
Definition same_ignoring_case (a b : string) : Prop :=
  Js.toLowerCase a = Js.toLowerCase b.

(** No two entries (at different positions) equal under case-insensitive
    comparison. *)
Definition no_duplicates_ignoring_case (l : list string) : Prop :=
  forall i j a b,
    nth_error l i = Some a -> nth_error l j = Some b -> i <> j ->
    ~ same_ignoring_case a b.

(** No entry contains one of the patterns, case being ignored. *)
Definition none_excluded (patterns l : list string) : Prop :=
  forall email pattern,
    In email l -> In pattern patterns ->
    Js.includes (Js.toLowerCase email) (Js.toLowerCase pattern) = false.

(** The sentence "fails fast" for a URL without the scheme prefix: no fetch
    and no signal. *)
Definition fails_fast_without_scheme
           (self : Scraper.EmailScraper) (fetch : nat -> FetchSettled)
           (url : string) : Prop :=
  Js.startsWith url "http" = false ->
  forall result trace,
    Scraper.processSite self fetch url = Some (result, trace) ->
    fetch_count trace = 0%nat /\ Scraper.emails result = [].

(** Consecutive chunks of [size] elements, the last one possibly shorter. *)
Fixpoint chunks_fuel {A} (fuel size : nat) (l : list A) : list (list A) :=
  match fuel with
  | O => []
  | S fuel' =>
      match l with
      | [] => []
      | _ => firstn size l :: chunks_fuel fuel' size (skipn size l)
      end
  end.

Definition chunks_of {A} (size : nat) (l : list A) : list (list A) :=
  chunks_fuel (List.length l) size l.

(** [l] with [sep] between any two consecutive elements, and nowhere else. *)
Fixpoint separated_by {A} (sep : A) (l : list A) : list A :=
  match l with
  | [] => []
  | [x] => [x]
  | x :: l' => x :: sep :: separated_by sep l'
  end.

(** The values of the handler calls that are fulfilled, in the order of the
    items. *)
Definition fulfilled {T R} (handler : T -> Batch.Settled R) (item : T) : list R :=
  match handler item with
  | Batch.Fulfilled r => [r]
  | Batch.Thrown _ => []
  end.

(** The sentence "exactly one result per target", for the runner. *)
Definition one_result_per_target {T R} (items : list T)
           (handler : T -> Batch.Settled R) (limit : Z) (choose : nat -> nat)
  : Prop :=
  exists rs,
    Batch.runWithConcurrency items handler limit choose = Some rs /\
    List.length rs = List.length items.

(** The sentence "as soon as one worker completes, the next unstarted target
    (if any) is admitted", for [scrapeEmails]: whenever a promise settles
    while sites are still waiting in later batches, one of them starts. *)
Definition admits_on_completion (self : Scraper.EmailScraper) (net : Scraper.Net)
           (sites : list Scraper.Site) : Prop :=
  forall schedule choice st,
    Scraper.scrapeEmails_start self sites = Some st ->
    let s := Scraper.run self net schedule st in
    Scraper.pending s <> [] ->
    Scraper.batches s <> [] ->
    (List.length (List.concat (Scraper.batches (Scraper.settle self net choice s)))
     < List.length (List.concat (Scraper.batches s)))%nat.

(** The result [processUrlBatch] computes for one target. *)
Definition scraped (net : Batch.Net) (item : Batch.LinkState) : Batch.ScrapedResult :=
  Batch.mkScraped (Batch.title item) (Batch.link item)
                  (fst (Batch.fetchEmails net item)).

(** The try block of [processSite] throws on the [n]-th fetch. *)
Definition throws (self : Scraper.EmailScraper) (fetch : nat -> FetchSettled)
           (url : string) (n : nat) : Prop :=
  exists e, Scraper.attempt self url (fetch n) = inr e.

(** The failed result of [processSite]: it repeats what the last attempt
    threw. *)
Definition failed (url : string) (e : Js.Error) : Scraper.ScrapingResult :=
  Scraper.mkResult url [] false (Some (Scraper.message_or_unknown e)).


(** The scraper built from no option at all. *)
Definition default_scraper : Scraper.EmailScraper :=
  Scraper.new_EmailScraper Scraper.no_options.

(** A server that answers 404 to every request. *)
Definition always_404 (n : nat) : FetchSettled := Responds 404 (TextOk "Not Found").

(** A [fetch] that rejects every call (what it does with a URL it cannot
    use). *)
Definition always_rejects (n : nat) : FetchSettled :=
  Rejects NetworkFailure (Js.mkError "TypeError" "Invalid URL").

(** The value pushed for the worker of index [i], if any. *)
Definition fulfilled_at {T R} (items : list T) (handler : T -> Batch.Settled R)
           (i : nat) : list R :=
  match nth_error items i with
  | Some item => fulfilled handler item
  | None => []
  end.

(** What holds of every state of a running [runWithConcurrency]; [done]
    lists the workers that have finished, in the order they did. *)
Record runner_inv {T R} (items : list T) (handler : T -> Batch.Settled R)
       (limit : Z) (st : @Batch.RunState R) (done : list nat) : Prop := {
  inv_active : Batch.activeCount st = Z.of_nat (List.length (Batch.pending st));
  inv_started : Permutation (done ++ Batch.pending st) (seq 0 (Batch.index st));
  inv_index : (Batch.index st <= List.length items)%nat;
  inv_results : Batch.results st = flat_map (fulfilled_at items handler) done;
  inv_window :
    (Batch.index st < List.length items)%nat ->
    List.length (Batch.pending st)
    = Z.to_nat (Z.min limit (Z.of_nat (List.length items)));
  inv_bound :
    (List.length (Batch.pending st)
     <= Z.to_nat (Z.min limit (Z.of_nat (List.length items))))%nat;
  inv_resolved :
    match Batch.resolved st with
    | Some rs =>
        rs = Batch.results st /\ Batch.pending st = [] /\
        Batch.index st = List.length items
    | None =>
        Batch.pending st = [] ->
        Z.to_nat (Z.min limit (Z.of_nat (List.length items))) = 0%nat
    end
}.

(** Work left: targets not started plus workers in flight. *)
Definition work_left {T R} (items : list T) (st : @Batch.RunState R) : nat :=
  (List.length items - Batch.index st) + List.length (Batch.pending st).

(** The result [scrapeEmails] pushes for a site. *)
Definition site_result (self : Scraper.EmailScraper) (net : Scraper.Net)
           (site : Scraper.Site) : option Scraper.ScrapingResult :=
  option_map fst (Scraper.processSite self (net (Scraper.link site))
                                      (Scraper.link site)).

(** What holds of every state of a running [scrapeEmails]; [done] lists the
    sites whose promise has settled, in the order they did. *)
Record scrape_inv (self : Scraper.EmailScraper) (net : Scraper.Net)
       (sites : list Scraper.Site) (st : Scraper.ScrapeState)
       (done : list Scraper.Site) : Prop := {
  sinv_sites :
    Permutation (done ++ Scraper.pending st ++ List.concat (Scraper.batches st))
                sites;
  sinv_results :
    map Some (Scraper.results st) = map (site_result self net) done;
  sinv_batches :
    Forall (fun b => 1 <= List.length b
                     <= Z.to_nat (Scraper.concurrency (Scraper.config self)))%nat
           (Scraper.batches st);
  sinv_bound :
    (List.length (Scraper.pending st)
     <= Z.to_nat (Scraper.concurrency (Scraper.config self)))%nat;
  sinv_returned :
    match Scraper.returned st with
    | Some rs =>
        rs = Scraper.results st /\ Scraper.pending st = [] /\
        Scraper.batches st = []
    | None => Scraper.pending st <> []
    end
}.

Definition sites_left (st : Scraper.ScrapeState) : nat :=
  List.length (Scraper.pending st) + List.length (List.concat (Scraper.batches st)).

(** A handler that throws on the item 3 and multiplies the others by ten. *)
Definition flaky_handler (x : Z) : Batch.Settled Z :=
  if x =? 3 then Batch.Thrown (Js.mkError "Error" "boom")
  else Batch.Fulfilled (x * 10).

(** A scraper with [concurrency] 2 and three sites for it. *)
Definition pair_scraper : Scraper.EmailScraper :=
  Scraper.new_EmailScraper
    (Scraper.mkOptions (Some 2) None None None None None).

Definition three_sites : list Scraper.Site :=
  [ Scraper.mkSite "A" "http://a.test";
    Scraper.mkSite "B" "http://b.test";
    Scraper.mkSite "C" "http://c.test" ].

Definition net_404 : Scraper.Net := fun _ => always_404.

(** Five targets, a network on which only [good.test] answers, and the
    schedule that always lets the oldest worker settle first. *)
Definition five_links : list Batch.LinkState :=
  [ Batch.mkLink "A" "http://good.test";
    Batch.mkLink "B" "http://bad.test";
    Batch.mkLink "C" "http://good.test/about";
    Batch.mkLink "D" "ftp://files.test";
    Batch.mkLink "E" "http://good.test" ].

Definition sample_net : Batch.Net :=
  fun url =>
    if String.eqb url "http://good.test" then
      Responds 200 (TextOk "write to contact@good.test <img src=logo@2x.png>")
    else if String.eqb url "http://good.test/about" then
      Responds 200 (TextOk "nothing to see")
    else Rejects DeadlineAbort (Js.mkError "Error" "Operation timed out after 5000ms").

Definition oldest_first : Z -> nat -> nat := fun _ _ => 0%nat.

Definition batches_of_two : Batch.Options :=
  Batch.mkOptions (Some 2) None None.

(** ** Vocabulary for the further properties *)

(** Every character of [s] is in the class [c]. *)
Fixpoint all_chars (c : ascii -> bool) (s : string) : bool :=
  match s with
  | EmptyString => true
  | String x s' => andb (c x) (all_chars c s')
  end.

(** The three character classes of [EMAIL_REGEX]. *)
Definition is_alpha (c : ascii) : bool :=
  orb (Regex.in_range "a" "z" c) (Regex.in_range "A" "Z" c).

Definition is_local_char (c : ascii) : bool :=
  orb (orb (is_alpha c) (Regex.in_range "0" "9" c)) (Regex.one_of "._%+-" c).

Definition is_domain_char (c : ascii) : bool :=
  orb (orb (is_alpha c) (Regex.in_range "0" "9" c)) (Regex.one_of ".-" c).

(** The shape [local@domain.tld] that the pattern describes. *)
Definition address_shape (m : string) : Prop :=
  exists local domain tld,
    m = (local ++ "@" ++ domain ++ "." ++ tld)%string /\
    (1 <= String.length local)%nat /\ all_chars is_local_char local = true /\
    (1 <= String.length domain)%nat /\ all_chars is_domain_char domain = true /\
    (2 <= String.length tld)%nat /\ all_chars is_alpha tld = true.

(** The error that a failed attempt carries: the reason of the rejection of
    [fetch], or of [response.text()]. *)
Definition failure_error (o : FetchSettled) : option Js.Error :=
  match o with
  | Rejects _ e => Some e
  | Responds _ (TextFails e) => Some e
  | Responds _ (TextOk _) => None
  end.

(** The sentence "on exhausting retries [...] error set to the last
    failure's classification", with the rest of what is said of a target
    whose attempts all fail: the [error] field is a label of the
    classification of the last attempt. *)
Definition exhaustion_reports_classification
           (self : Scraper.EmailScraper) (url : string) : Prop :=
  exists label : FetchOutcome -> string,
    forall fetch : nat -> FetchSettled,
      (forall n, classify (fetch n) = Timeout \/ classify (fetch n) = NetworkError) ->
      exists trace,
        Scraper.processSite self fetch url
        = Some (Scraper.mkResult
                  url [] false
                  (Some (label (classify
                                  (fetch (Z.to_nat (Scraper.maxRetries
                                                      (Scraper.config self))))))),
                trace) /\
        Z.of_nat (fetch_count trace) = Scraper.maxRetries (Scraper.config self) + 1.

(** Two networks that fail in the same way, with different messages. *)
Definition network_down (n : nat) : FetchSettled :=
  Rejects NetworkFailure (Js.mkError "TypeError" "fetch failed").

Definition socket_closed (n : nat) : FetchSettled :=
  Rejects NetworkFailure (Js.mkError "SocketError" "other side closed").

(** The runner calls that [processUrlBatch] makes for a list of chunks, one
    after the other: the chunk that starts at [offset] is run to the
    resolution of its promise, whose value is kept, before the next chunk,
    at [offset + size], is looked at; [None] when one of the promises stays
    pending. *)
Fixpoint batch_outputs (net : Batch.Net) (choose : Z -> nat -> nat)
         (concurrency size offset : Z) (chunks : list (list Batch.LinkState))
  : option (list (list Batch.ScrapedResult)) :=
  match chunks with
  | [] => Some []
  | chunk :: rest =>
      match Batch.runWithConcurrency chunk (Batch.worker net) concurrency
                                     (choose offset) with
      | None => None
      | Some out =>
          match batch_outputs net choose concurrency size (offset + size) rest with
          | None => None
          | Some outs => Some (out :: outs)
          end
      end
  end.

(** The order in which pending promises settle under a schedule: each
    choice, taken modulo the number of promises still pending, names the
    next one to settle. *)
Fixpoint drain {A} (schedule : list nat) (pending : list A) : list A :=
  match schedule with
  | [] => []
  | choice :: rest =>
      let p := (choice mod List.length pending)%nat in
      match nth_error pending p with
      | None => []
      | Some x => x :: drain rest (Scraper.remove_at p pending)
      end
  end.

(** Chunk after chunk: each chunk uses up as many choices of the schedule as
    it has promises. *)
Fixpoint settle_orders {A} (schedule : list nat) (chunks : list (list A))
  : list (list A) :=
  match chunks with
  | [] => []
  | chunk :: rest =>
      drain (firstn (List.length chunk) schedule) chunk
      :: settle_orders (skipn (List.length chunk) schedule) rest
  end.

(** The two kinds of step of [processUrlBatch]. *)
Definition is_run_batch (step : Batch.Step) : bool :=
  match step with Batch.RunBatch _ => true | Batch.Idle _ => false end.

Definition is_idle (step : Batch.Step) : bool :=
  match step with Batch.RunBatch _ => false | Batch.Idle _ => true end.

(** ** The search endpoint of the server (the file with [/getWebsites]) *)

Module Server.

(** An entry of [organic_results]: [title] and [link] may be missing. *)
Record Organic := mkOrganic { o_title : option string; o_link : option string }.

Record Website := mkWebsite { title : string; link : string }.

(** [if (item.title && item.link) allResults.push(...)] over the entries. *)
Fixpoint collect (organicResults : list Organic) : list Website :=
  match organicResults with
  | [] => []
  | item :: rest =>
      match o_title item, o_link item with
      | Some t, Some l =>
          if andb (Js.truthy t) (Js.truthy l) then mkWebsite t l :: collect rest
          else collect rest
      | _, _ => collect rest
      end
  end.

(** The filter that deduplicates by link, [seenLinks] being its state. *)
Fixpoint unique_by_link (seenLinks : list string) (allResults : list Website)
  : list Website :=
  match allResults with
  | [] => []
  | item :: rest =>
      if existsb (String.eqb (link item)) seenLinks then unique_by_link seenLinks rest
      else item :: unique_by_link (link item :: seenLinks) rest
  end.

Inductive Response :=
| Json (websites : list Website)
| BadRequest
| ServerError.

(** The handler of [/getWebsites].  [api] is what the search provider
    answers: [None] when the request fails, else its [organic_results], which
    may be missing. *)
Definition getWebsites (keyword region : string) (count : Z)
           (api : option (option (list Organic))) : Response :=
  if orb (negb (Js.truthy keyword)) (orb (negb (Js.truthy region)) (count =? 0))
  then BadRequest
  else
    match api with
    | None => ServerError
    | Some organic_results =>
        let allResults := collect (Scraper.list_or organic_results []) in
        let uniqueResults := unique_by_link [] allResults in
        Json (Js.slice uniqueResults 0 count)
    end.

End Server.

(** Projections of the two state records, for simplification. *)
Ltac run_fields :=
  cbn [Batch.index Batch.activeCount Batch.results Batch.pending Batch.resolved].

Ltac scrape_fields :=
  cbn [Scraper.results Scraper.pending Scraper.batches Scraper.returned].

(** * Properties *)

(** ** Small facts on lists *)

Lemma remove_at_perm {A} (l : list A) (p : nat) (x : A) :
  nth_error l p = Some x ->
  Permutation (x :: Scraper.remove_at p l) l /\
  S (List.length (Scraper.remove_at p l)) = List.length l.
Proof.
  intros H. destruct (nth_error_split l p H) as (l1 & l2 & -> & <-).
  unfold Scraper.remove_at.
  rewrite firstn_app, firstn_all, Nat.sub_diag, firstn_O, app_nil_r.
  replace (skipn (S (List.length l1)) (l1 ++ x :: l2)) with l2.
  - split.
    + apply Permutation_middle.
    + rewrite !length_app. simpl. lia.
  - clear H. induction l1 as [|y l1 IH]; simpl; auto.
Qed.

Lemma mod_pending_lt {A} (l : list A) (choice : nat) :
  l <> [] -> exists x, nth_error l (choice mod List.length l) = Some x.
Proof.
  intros H.
  assert (Hlt : (choice mod List.length l < List.length l)%nat).
  { apply Nat.mod_upper_bound. destruct l; [congruence | discriminate]. }
  destruct (nth_error l (choice mod List.length l)) eqn:E; eauto.
  apply nth_error_None in E. lia.
Qed.

Lemma slice_window {A} (l : list A) (i size : Z) :
  0 <= i -> 0 <= size ->
  Js.slice l i (i + size) = firstn (Z.to_nat size) (skipn (Z.to_nat i) l).
Proof.
  intros Hi Hs. unfold Js.slice.
  set (len := Z.of_nat (List.length l)).
  assert (Hlen : 0 <= len) by (subst len; lia).
  destruct (Z.ltb_spec i 0); [lia|].
  destruct (Z.ltb_spec (i + size) 0); [lia|].
  destruct (Z.le_gt_cases len i) as [Hout | Hin].
  - rewrite (Z.min_r i len) by lia.
    rewrite (skipn_all2 (n := Z.to_nat i)) by (subst len; lia).
    rewrite (skipn_all2 (n := Z.to_nat len)) by (subst len; lia).
    now rewrite !firstn_nil.
  - rewrite (Z.min_l i len) by lia.
    destruct (Z.le_gt_cases (i + size) len).
    + rewrite Z.min_l by lia. f_equal. lia.
    + rewrite Z.min_r by lia.
      rewrite !firstn_all2; auto; rewrite length_skipn; subst len; lia.
Qed.

(** ** The retry loop of [processSite] *)

Section RetryLoop.
Variable self : Scraper.EmailScraper.
Variable fetch : nat -> FetchSettled.
Variable url : string.

Let m := Scraper.maxRetries (Scraper.config self).
Let delay := Scraper.retryDelay (Scraper.config self).

Let fails := throws self fetch url.
Let failure := failed url.

Lemma not_success_throws n : classify (fetch n) <> Success -> fails n.
Proof.
  unfold fails, throws, classify, Scraper.attempt.
  destruct (fetch n) as [status text | why e]; [|eauto].
  destruct (response_ok status); simpl; [|eauto].
  destruct text; [congruence | eauto].
Qed.

(** [k] failed attempts in a row, with retries left: the loop is back at
    its head, [k] fetches and [k] pauses later. *)
Lemma loop_skips_failures k : forall fuel a c t,
  (forall j, (j < k)%nat -> fails (c + j)) ->
  a + Z.of_nat k <= m ->
  Scraper.processSite_loop (k + fuel) self fetch url a c t
  = Scraper.processSite_loop fuel self fetch url (a + Z.of_nat k) (c + k)
      (t ++ attempts_trace url delay k
         ++ match k with O => [] | _ => [EvSleep delay] end).
Proof.
  induction k as [|k IH]; intros fuel a c t Hthrow Hle.
  - simpl. now rewrite Z.add_0_r, Nat.add_0_r, app_nil_r.
  - cbn [Nat.add Scraper.processSite_loop]. fold m. fold delay.
    destruct (Z.leb_spec a m); [|lia].
    destruct (Hthrow 0%nat ltac:(lia)) as [e He].
    rewrite Nat.add_0_r in He. rewrite He.
    rewrite Z.gtb_ltb. destruct (Z.ltb_spec m (a + 1)); [lia|].
    rewrite IH.
    + f_equal; try lia.
      rewrite <- !app_assoc. f_equal. destruct k; reflexivity.
    + intros j Hj. replace (S c + j)%nat with (c + S j)%nat by lia.
      apply Hthrow. lia.
    + lia.
Qed.

(** The attempt that uses up the last retry. *)
Lemma loop_last_failure fuel a c t e :
  a = m -> Scraper.attempt self url (fetch c) = inr e ->
  Scraper.processSite_loop (S fuel) self fetch url a c t
  = Some (failure e, t ++ [EvFetch url]).
Proof.
  intros -> He. cbn [Scraper.processSite_loop]. fold m.
  rewrite Z.leb_refl, He, Z.gtb_ltb.
  destruct (Z.ltb_spec m (m + 1)); [reflexivity | lia].
Qed.

Lemma loop_success fuel a c t r :
  a <= m -> Scraper.attempt self url (fetch c) = inl r ->
  Scraper.processSite_loop (S fuel) self fetch url a c t
  = Some (r, t ++ [EvFetch url]).
Proof.
  intros Ha He. cbn [Scraper.processSite_loop]. fold m.
  destruct (Z.leb_spec a m); [|lia]. now rewrite He.
Qed.

(** The loop only adds to the trace, and a pass through its body adds a
    fetch first. *)
Lemma loop_extends_trace fuel : forall a c t r t',
  Scraper.processSite_loop fuel self fetch url a c t = Some (r, t') ->
  exists s, t' = t ++ s /\ (a <= m -> exists s', s = EvFetch url :: s').
Proof.
  induction fuel as [|fuel IH]; intros a c t r t' H; [discriminate|].
  cbn [Scraper.processSite_loop] in H. fold m in H. fold delay in H.
  destruct (Z.leb_spec a m).
  - destruct (Scraper.attempt self url (fetch c)) as [res | err].
    + injection H as <- <-. exists [EvFetch url]. split; eauto.
    + destruct (a + 1 >? m).
      * injection H as <- <-. exists [EvFetch url]. split; eauto.
      * apply IH in H. destruct H as (s & -> & _).
        exists (EvFetch url :: EvSleep delay :: s).
        rewrite <- !app_assoc. split; eauto.
  - injection H as <- <-. exists []. rewrite app_nil_r. split; [auto | lia].
Qed.

Lemma loop_total fuel : forall a c t,
  (Z.to_nat (m + 1 - a) < fuel)%nat ->
  exists r t', Scraper.processSite_loop fuel self fetch url a c t = Some (r, t').
Proof.
  induction fuel as [|fuel IH]; intros a c t Hfuel; [lia|].
  cbn [Scraper.processSite_loop]. fold m. fold delay.
  destruct (Z.leb_spec a m); [|eauto].
  destruct (Scraper.attempt self url (fetch c)); [eauto|].
  rewrite Z.gtb_ltb. destruct (Z.ltb_spec m (a + 1)); [eauto|].
  apply IH. lia.
Qed.

(** [processSite] always returns. *)
Lemma processSite_total :
  exists r t, Scraper.processSite self fetch url = Some (r, t).
Proof. apply loop_total. fold m. lia. Qed.

(** Every attempt up to the last allowed one throws: [m + 1] fetches, and
    the failed result of the last error. *)
Lemma processSite_exhausts :
  0 <= m ->
  (forall j, (j <= Z.to_nat m)%nat -> fails j) ->
  exists e,
    Scraper.attempt self url (fetch (Z.to_nat m)) = inr e /\
    Scraper.processSite self fetch url
    = Some (failure e, attempts_trace url delay (S (Z.to_nat m))).
Proof.
  intros Hm Hthrow.
  destruct (Hthrow (Z.to_nat m) (le_n _)) as [e He]. exists e. split; [exact He|].
  unfold Scraper.processSite. fold m.
  replace (S (Z.to_nat (m + 1))) with (Z.to_nat m + 2)%nat by lia.
  rewrite loop_skips_failures; [| intros; apply Hthrow; simpl; lia | lia].
  simpl Nat.add. rewrite (loop_last_failure _ _ _ _ e); [| lia | exact He].
  f_equal. f_equal. simpl app.
  clear. generalize (Z.to_nat m) as k. intros k.
  destruct k as [|k]; [reflexivity|].
  cbn [attempts_trace]. rewrite <- app_assoc. f_equal.
  induction k as [|k IH]; [reflexivity|].
  cbn [retries app]. do 2 f_equal. exact IH.
Qed.

Lemma fetch_count_attempts k :
  fetch_count (attempts_trace url delay k) = k.
Proof.
  destruct k as [|k]; [reflexivity|].
  unfold fetch_count. cbn [attempts_trace filter is_fetch List.length]. f_equal.
  induction k as [|k IH]; [reflexivity|].
  cbn [retries filter is_fetch List.length]. now rewrite IH.
Qed.

End RetryLoop.

Lemma retries_snoc url delay k :
  retries url delay (S k) = retries url delay k ++ [EvSleep delay; EvFetch url].
Proof.
  induction k as [|k IH]; [reflexivity|].
  cbn [retries app] in *. now rewrite <- IH.
Qed.

Lemma attempts_trace_snoc url delay k :
  attempts_trace url delay (S (S k))
  = attempts_trace url delay (S k) ++ [EvSleep delay; EvFetch url].
Proof. cbn [attempts_trace]. now rewrite retries_snoc. Qed.

(** C1, as the code has it.  In [processSite] an attempt that ends in an
    HTTP error status or in a cancellation is retried like any other failed
    attempt: when earlier attempts all failed and retries are left, the loop
    pauses for [retryDelay] and fetches again; it is terminal only as attempt
    number [maxRetries + 1], where the failed result carries its error. *)
Theorem processSite_retries_http_error_and_cancel :
  forall (self : Scraper.EmailScraper) (fetch : nat -> FetchSettled)
         (url : string) (n : nat),
    let m := Scraper.maxRetries (Scraper.config self) in
    let delay := Scraper.retryDelay (Scraper.config self) in
    Z.of_nat n <= m ->
    classify (fetch n) = HttpError \/ classify (fetch n) = Cancelled ->
    (forall j, (j < n)%nat -> classify (fetch j) <> Success) ->
    exists result trace e,
      Scraper.processSite self fetch url = Some (result, trace) /\
      Scraper.attempt self url (fetch n) = inr e /\
      (Z.of_nat n < m ->
       exists rest, trace = attempts_trace url delay (S (S n)) ++ rest) /\
      (Z.of_nat n = m ->
       trace = attempts_trace url delay (S n) /\ result = failed url e).
Proof.
  intros self fetch url n m delay Hn Hkind Hbefore.
  assert (Hthrow : forall j, (j <= n)%nat -> throws self fetch url j).
  { intros j Hj. apply not_success_throws.
    destruct (Nat.eq_dec j n) as [-> | Hne].
    - destruct Hkind as [-> | ->]; discriminate.
    - apply Hbefore. lia. }
  destruct (Hthrow n (le_n _)) as [e He].
  destruct (Z.eq_dec (Z.of_nat n) m) as [Heq | Hlt].
  - destruct (processSite_exhausts self fetch url) as (e' & He' & Hrun).
    + fold m. lia.
    + fold m. intros j Hj. apply Hthrow. lia.
    + fold m in He', Hrun. fold delay in Hrun.
      replace (Z.to_nat m) with n in * by lia.
      assert (e' = e) by congruence. subst e'.
      exists (failed url e), (attempts_trace url delay (S n)), e.
      split; [exact Hrun|]. split; [exact He|]. split; [lia | auto].
  - destruct (processSite_total self fetch url) as (r & t & Hrun).
    exists r, t, e. split; [exact Hrun|]. split; [exact He|].
    split; [|lia].
    intros _. unfold Scraper.processSite in Hrun. fold m in Hrun.
    replace (S (Z.to_nat (m + 1))) with (S n + (Z.to_nat m - n + 1))%nat in Hrun by lia.
    rewrite loop_skips_failures in Hrun;
      [| intros j Hj; apply Hthrow; simpl; lia | fold m; lia].
    apply loop_extends_trace in Hrun. destruct Hrun as (s & -> & Hs).
    destruct Hs as [s' ->]; [fold m; lia|].
    exists s'. fold delay. rewrite attempts_trace_snoc.
    cbn [app]. rewrite <- !app_assoc. reflexivity.
Qed.

Lemma processSite_retries_http_error_and_cancel_witness :
  exists result trace e,
    Scraper.processSite default_scraper always_404 "http://shop.test"
    = Some (result, trace) /\
    Scraper.attempt default_scraper "http://shop.test" (always_404 0) = inr e /\
    (0 < 2 -> exists rest,
        trace = attempts_trace "http://shop.test" 1000 2 ++ rest) /\
    (0 = 2 -> trace = attempts_trace "http://shop.test" 1000 1 /\
              result = failed "http://shop.test" e).
Proof.
  apply (processSite_retries_http_error_and_cancel
           default_scraper always_404 "http://shop.test" 0).
  - vm_compute. discriminate.
  - left. reflexivity.
  - intros j Hj. lia.
Defined.

(** C1, as stated, fails: against a server that answers 404 the default
    scraper fetches three times. *)
Lemma http_error_is_retried :
  ~ terminal_on_http_error_or_cancel default_scraper always_404 "http://shop.test".
Proof.
  intros H.
  destruct (H 0%nat _ _ (or_introl eq_refl) eq_refl) as [Hcount _].
  vm_compute in Hcount. lia.
Qed.

Lemma transient_failure_error self url (o : FetchSettled) (e : Js.Error) :
  classify o = Timeout \/ classify o = NetworkError ->
  Scraper.attempt self url o = inr e ->
  failure_error o = Some e.
Proof.
  unfold classify, Scraper.attempt, failure_error.
  destruct o as [status text | why e'].
  - destruct (response_ok status); cbn [negb];
      [|intros [H | H]; discriminate].
    destruct text as [body | e']; intros [H | H] He; try discriminate; congruence.
  - intros _ He. congruence.
Qed.

(** C2, as the code has it.  When every attempt fails with a timeout or a
    network error (and [maxRetries] is not negative), [processSite] fetches
    exactly [maxRetries + 1] times and returns [success = false], no e-mail,
    and as [error] the message of the error that the last attempt failed
    with, or ['Unknown error'] when that message is empty. *)
Theorem processSite_exhausts_retries :
  forall (self : Scraper.EmailScraper) (fetch : nat -> FetchSettled)
         (url : string),
    let m := Scraper.maxRetries (Scraper.config self) in
    0 <= m ->
    (forall n, classify (fetch n) = Timeout \/ classify (fetch n) = NetworkError) ->
    exists e trace,
      failure_error (fetch (Z.to_nat m)) = Some e /\
      Scraper.processSite self fetch url
      = Some (Scraper.mkResult
                url [] false
                (Some (if Js.truthy (Js.message e) then Js.message e
                       else "Unknown error")),
              trace) /\
      trace = attempts_trace url (Scraper.retryDelay (Scraper.config self))
                             (S (Z.to_nat m)) /\
      Z.of_nat (fetch_count trace) = m + 1.
Proof.
  intros self fetch url m Hm Hall.
  destruct (processSite_exhausts self fetch url) as (e & He & Hrun).
  - exact Hm.
  - intros j _. apply not_success_throws.
    destruct (Hall j) as [-> | ->]; discriminate.
  - exists e. eexists. split; [|split; [exact Hrun | split; [reflexivity|]]].
    + eapply transient_failure_error; [apply Hall | exact He].
    + rewrite fetch_count_attempts. fold m. lia.
Qed.

Lemma processSite_exhausts_retries_witness :
  exists e trace,
    failure_error (socket_closed (Z.to_nat 2)) = Some e /\
    Scraper.processSite default_scraper socket_closed "http://slow.test"
    = Some (Scraper.mkResult
              "http://slow.test" [] false
              (Some (if Js.truthy (Js.message e) then Js.message e
                     else "Unknown error")),
            trace) /\
    trace = attempts_trace "http://slow.test" 1000 (S (Z.to_nat 2)) /\
    Z.of_nat (fetch_count trace) = 2 + 1.
Proof.
  apply (processSite_exhausts_retries default_scraper socket_closed "http://slow.test").
  - vm_compute. discriminate.
  - intros n. right. reflexivity.
Defined.

(** C2, as stated, fails: the [error] field is the message of the last
    error, not a classification.  Two targets whose attempts all end in a
    network error get different [error] fields. *)
Lemma error_is_the_message_not_the_classification :
  ~ exhaustion_reports_classification default_scraper "http://slow.test".
Proof.
  intros [label H].
  destruct (H network_down) as (t1 & H1 & _); [intros n; now right|].
  destruct (H socket_closed) as (t2 & H2 & _); [intros n; now right|].
  vm_compute in H1, H2.
  injection H1 as H1 _. injection H2 as H2 _.
  change (classify (network_down 2)) with NetworkError in H1.
  change (classify (socket_closed 2)) with NetworkError in H2.
  rewrite <- H2 in H1. discriminate H1.
Qed.

(** ** URLs without the scheme prefix *)

(** C8, as the code has it.  [scrapeEmailsFromUrl] fails fast on a URL that
    does not start with ["http"]: no fetch, no e-mail, and the worker of
    [processUrlBatch] gives the target a zero-signal result.
    [processSite] checks nothing: with a non-negative [maxRetries] it begins
    by passing the URL to [fetch]. *)
Theorem url_without_scheme :
  forall (url : string),
    Js.startsWith url "http" = false ->
    (forall net, Batch.scrapeEmailsFromUrl net url = ([], [])) /\
    (forall net title,
        Batch.worker net (Batch.mkLink title url)
        = Batch.Fulfilled (Batch.mkScraped title url [])) /\
    (forall self fetch,
        0 <= Scraper.maxRetries (Scraper.config self) ->
        exists result trace,
          Scraper.processSite self fetch url
          = Some (result, EvFetch url :: trace)).
Proof.
  intros url Hscheme.
  assert (Hfast : forall net, Batch.scrapeEmailsFromUrl net url = ([], [])).
  { intros net. unfold Batch.scrapeEmailsFromUrl. rewrite Hscheme.
    now rewrite orb_true_r. }
  split; [exact Hfast|]. split.
  - intros net title. unfold Batch.worker, Batch.fetchEmails. simpl.
    now rewrite Hfast.
  - intros self fetch Hm.
    destruct (processSite_total self fetch url) as (r & t & Hrun).
    pose proof Hrun as Hext. apply loop_extends_trace in Hext.
    destruct Hext as (s & -> & Hs). destruct (Hs Hm) as [s' ->].
    exists r, s'. exact Hrun.
Qed.

Lemma url_without_scheme_witness :
  (forall net, Batch.scrapeEmailsFromUrl net "ftp://files.test/list" = ([], [])) /\
  (forall net title,
      Batch.worker net (Batch.mkLink title "ftp://files.test/list")
      = Batch.Fulfilled (Batch.mkScraped title "ftp://files.test/list" [])) /\
  (forall self fetch,
      0 <= Scraper.maxRetries (Scraper.config self) ->
      exists result trace,
        Scraper.processSite self fetch "ftp://files.test/list"
        = Some (result, EvFetch "ftp://files.test/list" :: trace)).
Proof.
  apply (url_without_scheme "ftp://files.test/list"). reflexivity.
Defined.

(** C8, as stated, fails on [processSite]: the default scraper calls [fetch]
    three times on a URL that has no ["http"] prefix. *)
Lemma processSite_fetches_any_url :
  ~ fails_fast_without_scheme default_scraper always_rejects "ftp://files.test/list".
Proof.
  intros H.
  destruct (H eq_refl _ _ eq_refl) as [Hcount _].
  vm_compute in Hcount. discriminate.
Qed.

(** ** The singleton *)


(** ** The extractors *)

Lemma existsb_eqb_In (x : string) (l : list string) :
  existsb (String.eqb x) l = true <-> In x l.
Proof.
  rewrite existsb_exists. split.
  - intros (y & Hy & Heq). apply String.eqb_eq in Heq. now subst.
  - intros H. exists x. split; [exact H | apply String.eqb_refl].
Qed.

Lemma set_insert_all_spec (l : list string) : forall seen,
  NoDup (Js.set_insert_all seen l) /\
  (forall x, In x (Js.set_insert_all seen l) -> In x l /\ ~ In x seen).
Proof.
  induction l as [|y l IH]; intros seen; simpl.
  - split; [constructor | contradiction].
  - destruct (existsb (String.eqb y) seen) eqn:E.
    + destruct (IH seen) as [Hnd Hin]. split; [exact Hnd|].
      intros x Hx. destruct (Hin x Hx). auto.
    + destruct (IH (y :: seen)) as [Hnd Hin]. split.
      * constructor; [|exact Hnd].
        intros Hy. destruct (Hin y Hy) as [_ Hn]. apply Hn. now left.
      * intros x [<- | Hx].
        -- split; [now left|]. intros Hs. apply existsb_eqb_In in Hs. congruence.
        -- destruct (Hin x Hx) as [Hl Hn]. split; [now right|].
           intros Hs. apply Hn. now right.
Qed.

Lemma excluded_by_false (patterns : list string) (email : string) :
  Scraper.excluded_by patterns email = false ->
  forall pattern, In pattern patterns ->
    Js.includes (Js.toLowerCase email) (Js.toLowerCase pattern) = false.
Proof.
  induction patterns as [|p ps IH]; simpl; [contradiction|].
  destruct (Js.includes (Js.toLowerCase email) (Js.toLowerCase p)) eqn:E;
    [discriminate|].
  intros H pattern [<- | Hin]; auto.
Qed.

(** C3, as the code has it.  Both extractors return a list without exact
    (case-sensitive) duplicates; no entry of [EmailScraper.extractEmails]
    contains a configured exclusion pattern, case being ignored; no entry of
    the batch processor's [extractEmails] ends with [.png] or [.jpg]. *)
Theorem extract_distinct_and_filtered :
  forall (self : Scraper.EmailScraper) (body : string),
    NoDup (Scraper.extractEmails self body) /\
    none_excluded (Scraper.excludePatterns (Scraper.config self))
                  (Scraper.extractEmails self body) /\
    NoDup (Batch.extractEmails body) /\
    (forall email, In email (Batch.extractEmails body) ->
                   Js.endsWith email ".png" = false /\
                   Js.endsWith email ".jpg" = false).
Proof.
  intros self body. unfold Scraper.extractEmails, Batch.extractEmails, Js.spread_set.
  split; [|split; [|split]].
  - apply NoDup_filter. apply set_insert_all_spec.
  - intros email pattern Hin Hp. apply filter_In in Hin. destruct Hin as [_ Hkeep].
    unfold Scraper.keep_email in Hkeep.
    destruct (negb (Js.includes email "@")); [discriminate|].
    apply negb_true_iff in Hkeep. eapply excluded_by_false; eauto.
  - apply set_insert_all_spec.
  - intros email Hin. apply set_insert_all_spec in Hin. destruct Hin as [Hin _].
    apply filter_In in Hin. destruct Hin as [_ Hkeep].
    apply andb_true_iff in Hkeep. destruct Hkeep as [_ Hkeep].
    apply andb_true_iff in Hkeep. destruct Hkeep as [Hpng Hjpg].
    now rewrite negb_true_iff in Hpng, Hjpg.
Qed.

(** C3, as stated, fails: two spellings of one address that differ in case
    are both returned. *)
Lemma extract_keeps_case_variants :
  ~ (no_duplicates_ignoring_case
       (Scraper.extractEmails default_scraper "Info@Shop.io or info@shop.io") /\
     none_excluded (Scraper.excludePatterns (Scraper.config default_scraper))
       (Scraper.extractEmails default_scraper "Info@Shop.io or info@shop.io")).
Proof.
  intros [Hdup _].
  apply (Hdup 0%nat 1%nat "Info@Shop.io" "info@shop.io"); try reflexivity.
  discriminate.
Qed.

(** ** The runner: invariant, progress, termination *)

Section RunnerFacts.
Context {T R : Type}.
Variable items : list T.
Variable handler : T -> Batch.Settled R.
Variable limit : Z.

Local Abbreviation n := (List.length items).
Local Abbreviation L := (Z.to_nat (Z.min limit (Z.of_nat (List.length items)))).
Local Abbreviation Inv := (runner_inv items handler limit).
Local Abbreviation start0 := (@Batch.start T R items limit).

Lemma initial_workers k :
  (k <= n)%nat ->
  Nat.iter k (Batch.runNext items) (@Batch.init R)
  = Batch.mkRun [] (Z.of_nat k) k (seq 0 k) None.
Proof.
  induction k as [|k IH]; intros Hk; [reflexivity|].
  rewrite Nat.iter_succ, IH by lia. unfold Batch.runNext.
  cbn [Batch.index Batch.activeCount Batch.results Batch.pending Batch.resolved].
  destruct (Nat.leb_spec n k); [lia|].
  rewrite seq_S. f_equal. lia.
Qed.

Lemma start_state :
  start0 = Batch.mkRun [] (Z.of_nat L) L (seq 0 L) None.
Proof. unfold Batch.start. apply initial_workers. lia. Qed.

Lemma inv_start : Inv start0 [].
Proof.
  rewrite start_state. constructor; cbn; rewrite ?length_seq; auto; try lia.
  intros H. apply (f_equal (@List.length nat)) in H.
  now rewrite length_seq in H.
Qed.

Lemma settle_idle choice (st : @Batch.RunState R) :
  Batch.pending st = [] -> Batch.settle items handler choice st = st.
Proof.
  intros H. unfold Batch.settle. rewrite H.
  now rewrite nth_error_nil.
Qed.

Lemma run_idle schedule : forall (st : @Batch.RunState R),
  Batch.pending st = [] -> Batch.run items handler schedule st = st.
Proof.
  induction schedule as [|c schedule IH]; intros st H; [reflexivity|].
  cbn [Batch.run]. rewrite settle_idle by exact H. now apply IH.
Qed.

(** One settlement: the invariant is kept, one unit of work is done, and
    the next target, if there is one, starts at once. *)
Lemma inv_settle choice st done :
  Inv st done -> Batch.pending st <> [] ->
  let st' := Batch.settle items handler choice st in
  exists cur,
    In cur (Batch.pending st) /\
    Inv st' (done ++ [cur]) /\
    S (work_left items st') = work_left items st /\
    ((Batch.index st < n)%nat ->
     Batch.index st' = S (Batch.index st) /\
     In (Batch.index st) (Batch.pending st') /\
     List.length (Batch.pending st') = List.length (Batch.pending st)).
Proof.
  intros [Hact Hperm Hidx Hres Hwin Hbound Hresolved] Hne st'.
  destruct (mod_pending_lt (Batch.pending st) choice Hne) as [cur Hcur].
  destruct (remove_at_perm _ _ _ Hcur) as [Hrm Hlen].
  exists cur. split; [eapply nth_error_In; eauto|].
  assert (Hnone : Batch.resolved st = None).
  { destruct (Batch.resolved st); [|reflexivity].
    destruct Hresolved as (_ & Hp & _). contradiction. }
  assert (Hdone : Permutation ((done ++ [cur])
                                 ++ Scraper.remove_at (choice mod List.length (Batch.pending st))
                                      (Batch.pending st))
                              (seq 0 (Batch.index st))).
  { rewrite <- app_assoc. cbn [app]. rewrite <- Hperm.
    apply Permutation_app_head. exact Hrm. }
  assert (Hpush :
            match nth_error items cur with
            | Some item =>
                match handler item with
                | Batch.Fulfilled result => Batch.results st ++ [result]
                | Batch.Thrown _ => Batch.results st
                end
            | None => Batch.results st
            end = flat_map (fulfilled_at items handler) (done ++ [cur])).
  { rewrite flat_map_app, <- Hres. cbn [flat_map]. rewrite app_nil_r.
    unfold fulfilled_at, fulfilled.
    destruct (nth_error items cur); [|now rewrite app_nil_r].
    destruct (handler t); [reflexivity | now rewrite app_nil_r]. }
  subst st'. unfold Batch.settle. rewrite Hcur.
  unfold Batch.resume, Batch.runNext, work_left.
  cbn [Batch.index Batch.activeCount Batch.results Batch.pending Batch.resolved].
  rewrite Hpush, Hnone.
  set (others := Scraper.remove_at _ _) in *.
  destruct (Nat.leb_spec n (Batch.index st)) as [Hend | Hmore].
  - destruct (Z.eqb_spec (Batch.activeCount st - 1) 0) as [Hzero | Hsome].
    + unfold Batch.resolve.
      cbn [Batch.index Batch.activeCount Batch.results Batch.pending Batch.resolved].
      assert (Hothers : others = []) by (destruct others; [reflexivity | simpl in *; lia]).
      split; [|split; [simpl; lia | lia]].
      constructor; cbn; auto; try lia.
      * repeat split; auto. lia.
    + split; [|split; [simpl; lia | lia]].
      constructor; cbn; auto; try lia.
      intros Ho. rewrite Ho in Hlen. simpl in Hlen. lia.
  - specialize (Hwin Hmore).
    split; [|split; [simpl; rewrite length_app; simpl; lia|]].
    + constructor; run_fields; rewrite ?length_app; cbn [List.length];
        auto; try lia.
      * rewrite seq_S, app_assoc. cbn [Nat.add].
        apply Permutation_app_tail. exact Hdone.
      * intros Ho. apply (f_equal (@List.length nat)) in Ho.
        rewrite length_app in Ho. simpl in Ho. lia.
    + intros _. run_fields. split; [reflexivity|]. split.
      * apply in_or_app. right. now left.
      * rewrite length_app. simpl. lia.
Qed.

Lemma inv_run schedule : forall st done,
  Inv st done -> exists done', Inv (Batch.run items handler schedule st) done'.
Proof.
  induction schedule as [|c schedule IH]; intros st done H; [eauto|].
  cbn [Batch.run].
  destruct (Batch.pending st) eqn:E.
  - rewrite settle_idle by exact E. eauto.
  - destruct (inv_settle c st done H) as (cur & _ & H' & _); [congruence|].
    eauto.
Qed.

(** Every state reached from the start satisfies the invariant. *)
Lemma inv_reachable schedule :
  exists done, Inv (Batch.run items handler schedule start0) done.
Proof. eapply inv_run. apply inv_start. Qed.

(** With at least one initial worker, each settlement of the schedule does
    one unit of work until none is left. *)
Lemma run_work_left schedule : forall st done,
  (1 <= L)%nat -> Inv st done ->
  work_left items (Batch.run items handler schedule st)
  = (work_left items st - List.length schedule)%nat.
Proof.
  induction schedule as [|c schedule IH]; intros st done HL H.
  - cbn. lia.
  - cbn [Batch.run List.length].
    destruct (Batch.pending st) eqn:E.
    + rewrite settle_idle by exact E. rewrite run_idle by exact E.
      destruct H as [_ _ Hidx _ Hwin _ Hresolved]. unfold work_left.
      rewrite E in *. cbn [List.length] in *.
      destruct (Nat.ltb_spec (Batch.index st) n) as [Hlt | Hge]; [|lia].
      specialize (Hwin Hlt). lia.
    + destruct (inv_settle c st done H) as (cur & _ & H' & Hwork & _);
        [congruence|].
      rewrite (IH _ _ HL H'). lia.
Qed.

Lemma start_work_left : work_left items start0 = n.
Proof. rewrite start_state. unfold work_left. cbn. rewrite length_seq. lia. Qed.

Lemma fulfilled_seq :
  flat_map (fulfilled_at items handler) (seq 0 n)
  = flat_map (fulfilled handler) items.
Proof.
  clear limit. induction items as [|x l IH] using rev_ind; [reflexivity|].
  rewrite length_app. cbn [List.length]. rewrite Nat.add_1_r, seq_S.
  rewrite !flat_map_app. cbn [flat_map Nat.add]. f_equal.
  - rewrite <- IH. rewrite !flat_map_concat_map. f_equal.
    apply map_ext_in. intros i Hi. apply in_seq in Hi.
    unfold fulfilled_at. now rewrite nth_error_app1 by lia.
  - unfold fulfilled_at. rewrite nth_error_app2 by lia.
    now rewrite Nat.sub_diag.
Qed.

(** Termination and result: with a target and a positive limit, once as
    many workers have settled as there are targets, whatever the order,
    the promise is resolved with the values of the fulfilled handler
    calls, one for each such target. *)
Lemma runner_resolves schedule :
  items <> [] -> 1 <= limit -> (n <= List.length schedule)%nat ->
  exists rs,
    Batch.resolved (Batch.run items handler schedule start0)
    = Some rs /\
    Permutation rs (flat_map (fulfilled handler) items).
Proof.
  intros Hitems Hlimit Hlen.
  assert (HL : (1 <= L)%nat).
  { destruct items; [congruence|]. cbn [List.length]. lia. }
  destruct (inv_reachable schedule) as [done H].
  pose proof (run_work_left schedule _ _ HL inv_start) as Hwork.
  rewrite start_work_left in Hwork.
  set (st := Batch.run items handler schedule start0) in *.
  unfold work_left in Hwork.
  destruct H as [_ Hperm Hidx Hres _ _ Hresolved].
  assert (Hp : Batch.pending st = [])
    by (destruct (Batch.pending st); [reflexivity | simpl in Hwork; lia]).
  destruct (Batch.resolved st) as [rs|].
  - destruct Hresolved as (-> & _ & Hn). exists (Batch.results st).
    split; [reflexivity|].
    rewrite Hres, <- fulfilled_seq. apply Permutation_flat_map.
    rewrite Hp, app_nil_r, Hn in Hperm. exact Hperm.
  - specialize (Hresolved Hp). lia.
Qed.

(** Without an initial worker nothing ever happens. *)
Lemma runner_stuck schedule :
  Z.min limit (Z.of_nat n) <= 0 ->
  Batch.run items handler schedule start0 = Batch.init.
Proof.
  intros H. rewrite start_state.
  replace L with 0%nat by lia. apply run_idle. reflexivity.
Qed.

End RunnerFacts.

(** ** Chunks *)

Section Chunks.
Context {A : Type}.
Variable size : nat.
Hypothesis size_pos : (1 <= size)%nat.

Lemma skipn_shorter (l : list A) :
  l <> [] -> (List.length (skipn size l) < List.length l)%nat.
Proof.
  intros H. rewrite length_skipn.
  destruct l; [congruence | cbn [List.length]; lia].
Qed.

Lemma chunks_fuel_enough fuel : forall fuel' (l : list A),
  (List.length l <= fuel)%nat -> (List.length l <= fuel')%nat ->
  chunks_fuel fuel size l = chunks_fuel fuel' size l.
Proof.
  induction fuel as [|fuel IH]; intros fuel' l H H'.
  - destruct l; [|simpl in H; lia]. now destruct fuel'.
  - destruct l as [|x l]; [now destruct fuel'|].
    destruct fuel' as [|fuel']; [simpl in H'; lia|].
    cbn [chunks_fuel]. f_equal.
    pose proof (skipn_shorter (x :: l) ltac:(discriminate)).
    apply IH; lia.
Qed.

Lemma chunks_of_cons (l : list A) :
  l <> [] -> chunks_of size l = firstn size l :: chunks_of size (skipn size l).
Proof.
  intros H. unfold chunks_of. destruct l as [|x l]; [congruence|].
  cbn [List.length chunks_fuel]. f_equal.
  pose proof (skipn_shorter (x :: l) ltac:(discriminate)) as Hs.
  cbn [List.length] in Hs. apply chunks_fuel_enough; lia.
Qed.

Lemma chunks_of_nil : chunks_of size (@nil A) = [].
Proof. reflexivity. Qed.

(** Induction along the chunks of a list. *)
Lemma chunks_ind (P : list A -> Prop) :
  P [] ->
  (forall l, l <> [] -> P (skipn size l) -> P l) ->
  forall l, P l.
Proof.
  intros Hnil Hstep l.
  remember (List.length l) as k eqn:Hk.
  revert l Hk. induction k as [k IH] using lt_wf_ind. intros l ->.
  destruct l as [|x l]; [exact Hnil|].
  apply Hstep; [discriminate|].
  eapply IH; [|reflexivity]. apply skipn_shorter. discriminate.
Qed.

(** The chunks are consecutive pieces of the list... *)
Lemma chunks_of_concat (l : list A) : List.concat (chunks_of size l) = l.
Proof.
  induction l as [|l Hne IH] using chunks_ind; [reflexivity|].
  rewrite chunks_of_cons by exact Hne. cbn [List.concat].
  rewrite IH. apply firstn_skipn.
Qed.

(** ... none is empty or longer than [size] ... *)
Lemma chunks_of_sizes (l : list A) :
  Forall (fun c => 1 <= List.length c <= size)%nat (chunks_of size l).
Proof.
  induction l as [|l Hne IH] using chunks_ind; [constructor|].
  rewrite chunks_of_cons by exact Hne. constructor; [|exact IH].
  rewrite length_firstn. destruct l; [congruence | simpl; lia].
Qed.

(** ... and all but the last have exactly [size] elements. *)
Lemma chunks_of_full (l : list A) :
  Forall (fun c => List.length c = size) (removelast (chunks_of size l)).
Proof.
  induction l as [|l Hne IH] using chunks_ind; [constructor|].
  rewrite chunks_of_cons by exact Hne.
  destruct (skipn size l) as [|y rest] eqn:E.
  - rewrite chunks_of_nil. constructor.
  - rewrite chunks_of_cons in * by discriminate.
    cbn [removelast] in *. constructor; [|exact IH].
    rewrite length_firstn.
    assert (List.length (skipn size l) = S (List.length rest))
      by now rewrite E.
    rewrite length_skipn in *. lia.
Qed.

Lemma chunks_of_empty_iff (l : list A) : chunks_of size l = [] <-> l = [].
Proof.
  split; [|now intros ->].
  destruct l; [reflexivity|]. now rewrite chunks_of_cons by discriminate.
Qed.

End Chunks.

(** [chunkArray], for a positive size, returns the consecutive chunks. *)
Lemma chunk_loop_spec {A} (array : list A) (size : Z) :
  1 <= size ->
  forall fuel i chunks,
    0 <= i ->
    (List.length (skipn (Z.to_nat i) array) <= fuel)%nat ->
    Scraper.chunk_loop fuel array size i chunks
    = Some (chunks ++ chunks_of (Z.to_nat size) (skipn (Z.to_nat i) array)).
Proof.
  intros Hsize fuel.
  induction fuel as [|fuel IH]; intros i chunks Hi Hfuel;
    rewrite length_skipn in Hfuel.
  - cbn [Scraper.chunk_loop].
    destruct (Z.ltb_spec i (Z.of_nat (List.length array))); [lia|].
    rewrite skipn_all2 by lia. now rewrite chunks_of_nil, app_nil_r.
  - cbn [Scraper.chunk_loop].
    destruct (Z.ltb_spec i (Z.of_nat (List.length array))).
    + rewrite IH by (rewrite ?length_skipn; lia).
      rewrite (chunks_of_cons (Z.to_nat size)) with (l := skipn (Z.to_nat i) array).
      * rewrite slice_window by lia. rewrite skipn_skipn, <- app_assoc.
        replace (Z.to_nat (i + size)) with (Z.to_nat size + Z.to_nat i)%nat by lia.
        reflexivity.
      * lia.
      * intros E. apply (f_equal (@List.length A)) in E.
        rewrite length_skipn in E. simpl in E. lia.
    + rewrite skipn_all2 by lia. now rewrite chunks_of_nil, app_nil_r.
Qed.

Lemma chunkArray_spec {A} (array : list A) (size : Z) :
  1 <= size ->
  Scraper.chunkArray array size = Some (chunks_of (Z.to_nat size) array).
Proof.
  intros H. unfold Scraper.chunkArray.
  now rewrite chunk_loop_spec by (simpl; lia).
Qed.

(** With a size that is not positive the loop of [chunkArray] never gets
    past a non-empty array, whatever the fuel. *)
Lemma chunk_loop_diverges {A} (array : list A) (size : Z) :
  size <= 0 -> array <> [] ->
  forall fuel i chunks, i <= 0 -> Scraper.chunk_loop fuel array size i chunks = None.
Proof.
  intros Hsize Hne fuel.
  assert (0 < Z.of_nat (List.length array)) by (destruct array; [congruence | simpl; lia]).
  induction fuel as [|fuel IH]; intros i chunks Hi; cbn [Scraper.chunk_loop];
    destruct (Z.ltb_spec i (Z.of_nat (List.length array))); try lia; auto.
  apply IH. lia.
Qed.

(** ** [scrapeEmails]: invariant and termination *)

Section ScrapeFacts.
Variable self : Scraper.EmailScraper.
Variable net : Scraper.Net.
Variable sites : list Scraper.Site.

Local Abbreviation conc := (Scraper.concurrency (Scraper.config self)).
Local Abbreviation SInv := (scrape_inv self net sites).

Lemma next_batch_nonempty results batches :
  Forall (fun b : list Scraper.Site => 1 <= List.length b <= Z.to_nat conc)%nat
         batches ->
  Scraper.next_batch results batches
  = match batches with
    | [] => Scraper.mkScrape results [] [] (Some results)
    | batch :: rest => Scraper.mkScrape results batch rest None
    end.
Proof.
  intros H. destruct batches as [|b rest]; [reflexivity|].
  inversion_clear H as [|? ? Hb _]. destruct b; [simpl in Hb; lia | reflexivity].
Qed.

Lemma scrape_settle_idle choice st :
  Scraper.pending st = [] -> Scraper.settle self net choice st = st.
Proof.
  intros H. unfold Scraper.settle. rewrite H. now rewrite nth_error_nil.
Qed.

Lemma scrape_run_idle schedule : forall st,
  Scraper.pending st = [] -> Scraper.run self net schedule st = st.
Proof.
  induction schedule as [|c schedule IH]; intros st H; [reflexivity|].
  cbn [Scraper.run]. rewrite scrape_settle_idle by exact H. now apply IH.
Qed.

Lemma scrape_inv_start :
  1 <= conc ->
  exists st,
    Scraper.scrapeEmails_start self sites = Some st /\
    SInv st [] /\ sites_left st = List.length sites.
Proof.
  intros Hc. unfold Scraper.scrapeEmails_start.
  rewrite chunkArray_spec by exact Hc. cbn [option_map].
  assert (Hpos : (1 <= Z.to_nat conc)%nat) by lia.
  pose proof (chunks_of_sizes _ Hpos sites) as Hsizes.
  pose proof (chunks_of_concat _ Hpos sites) as Hcat.
  eexists. split; [reflexivity|].
  rewrite next_batch_nonempty by exact Hsizes.
  destruct (chunks_of (Z.to_nat conc) sites) as [|b rest].
  - cbn in Hcat. subst sites. split; [|reflexivity].
    constructor; scrape_fields; cbn; auto; lia.
  - inversion_clear Hsizes as [|? ? Hb Hrest].
    cbn [List.concat] in Hcat. split.
    + constructor; scrape_fields; cbn [app map]; auto; try lia.
      * now rewrite Hcat.
      * destruct b; [simpl in Hb; lia | discriminate].
    + unfold sites_left. scrape_fields. rewrite <- Hcat, length_app. lia.
Qed.

Lemma scrape_inv_settle choice st done :
  SInv st done -> Scraper.pending st <> [] ->
  exists site,
    SInv (Scraper.settle self net choice st) (done ++ [site]) /\
    S (sites_left (Scraper.settle self net choice st)) = sites_left st.
Proof.
  intros [Hsites Hres Hbatches Hbound Hret] Hne.
  destruct (mod_pending_lt (Scraper.pending st) choice Hne) as [site Hsite].
  destruct (remove_at_perm _ _ _ Hsite) as [Hrm Hlen].
  destruct (processSite_total self (net (Scraper.link site)) (Scraper.link site))
    as (r & t & Hrun).
  exists site. unfold Scraper.settle. rewrite Hsite, Hrun.
  set (others := Scraper.remove_at _ _) in *.
  assert (Hpush : map Some (Scraper.results st ++ [r])
                  = map (site_result self net) (done ++ [site])).
  { rewrite !map_app, Hres. cbn [map]. unfold site_result. now rewrite Hrun. }
  assert (Hperm : forall X,
             Permutation ((done ++ [site]) ++ others ++ X)
                         (done ++ Scraper.pending st ++ X)).
  { intros X. rewrite <- app_assoc. apply Permutation_app_head.
    cbn [app]. change (site :: others ++ X) with ((site :: others) ++ X).
    apply Permutation_app_tail. exact Hrm. }
  unfold sites_left.
  destruct others as [|y others'] eqn:Eo.
  - rewrite next_batch_nonempty by exact Hbatches.
    destruct (Scraper.batches st) as [|b rest] eqn:Eb.
    + split; [|scrape_fields; simpl in *; lia].
      constructor; scrape_fields; auto.
      * rewrite <- Hsites. apply (Hperm []).
      * simpl. lia.
    + inversion_clear Hbatches as [|? ? Hb Hrest].
      split; [|scrape_fields; cbn [List.concat]; rewrite length_app; simpl in *; lia].
      constructor; scrape_fields; auto; try lia.
      * rewrite <- Hsites. cbn [List.concat]. apply (Hperm (b ++ List.concat rest)).
      * destruct b; [simpl in Hb; lia | discriminate].
  - split; [|scrape_fields; simpl in *; lia].
    constructor; scrape_fields; auto.
    + rewrite <- Hsites. apply Hperm.
    + simpl in *. lia.
    + discriminate.
Qed.

Lemma scrape_inv_run schedule : forall st done,
  SInv st done ->
  exists done',
    SInv (Scraper.run self net schedule st) done' /\
    sites_left (Scraper.run self net schedule st)
    = (sites_left st - List.length schedule)%nat.
Proof.
  induction schedule as [|c schedule IH]; intros st done H.
  - exists done. split; [exact H | cbn; lia].
  - cbn [Scraper.run List.length].
    destruct (Scraper.pending st) eqn:E.
    + rewrite scrape_settle_idle by exact E. rewrite scrape_run_idle by exact E.
      exists done. split; [exact H|].
      destruct H as [_ _ _ _ Hret]. unfold sites_left. rewrite E.
      destruct (Scraper.returned st); [|congruence].
      destruct Hret as (_ & _ & ->). reflexivity.
    + destruct (scrape_inv_settle c st done H) as (site & H' & Hleft);
        [congruence|].
      destruct (IH _ _ H') as (done' & Hinv & Hl).
      exists done'. split; [exact Hinv|]. rewrite Hl. lia.
Qed.

(** With a positive [concurrency], once as many promises have settled as
    there are sites, [scrapeEmails] returns one result per site. *)
Lemma scrapeEmails_returns schedule :
  1 <= conc -> (List.length sites <= List.length schedule)%nat ->
  exists rs,
    Scraper.scrapeEmails self net schedule sites = Some rs /\
    Permutation (map Some rs) (map (site_result self net) sites).
Proof.
  intros Hc Hlen.
  destruct (scrape_inv_start Hc) as (st & Hstart & Hinv & Hleft).
  destruct (scrape_inv_run schedule st [] Hinv) as (done & Hfin & Hl).
  unfold Scraper.scrapeEmails. rewrite Hstart.
  set (s := Scraper.run self net schedule st) in *.
  destruct Hfin as [Hsites Hres _ _ Hret].
  unfold sites_left in Hl, Hleft.
  assert (Hp : Scraper.pending s = [])
    by (destruct (Scraper.pending s); [reflexivity | simpl in Hl; lia]).
  destruct (Scraper.returned s) as [rs|]; [|contradiction].
  destruct Hret as (-> & _ & Hb). exists (Scraper.results s).
  split; [reflexivity|].
  rewrite Hres. apply Permutation_map.
  rewrite Hp, Hb in Hsites. cbn in Hsites. now rewrite app_nil_r in Hsites.
Qed.

(** In-flight promises never exceed [concurrency]. *)
Lemma scrape_in_flight schedule st :
  1 <= conc ->
  Scraper.scrapeEmails_start self sites = Some st ->
  (List.length (Scraper.pending (Scraper.run self net schedule st))
   <= Z.to_nat conc)%nat.
Proof.
  intros Hc Hstart.
  destruct (scrape_inv_start Hc) as (st' & Hstart' & Hinv & _).
  assert (st' = st) by congruence. subst st'.
  destruct (scrape_inv_run schedule st [] Hinv) as (done & [_ _ _ Hb _] & _).
  exact Hb.
Qed.

(** While more than one promise of the batch is pending, a settlement
    starts nothing: the later batches stay as they are. *)
Lemma scrape_static choice st :
  (1 < List.length (Scraper.pending st))%nat ->
  Scraper.batches (Scraper.settle self net choice st) = Scraper.batches st.
Proof.
  intros Hlen.
  assert (Hne : Scraper.pending st <> [])
    by (destruct (Scraper.pending st); [simpl in Hlen; lia | discriminate]).
  destruct (mod_pending_lt (Scraper.pending st) choice Hne) as [site Hsite].
  destruct (remove_at_perm _ _ _ Hsite) as [_ Hrm].
  unfold Scraper.settle. rewrite Hsite.
  destruct (Scraper.processSite self (net (Scraper.link site)) (Scraper.link site))
    as [[r t]|]; [|reflexivity].
  destruct (Scraper.remove_at _ _); [simpl in Hrm; lia | reflexivity].
Qed.

End ScrapeFacts.

(** ** The batch runner: results, window, resolution *)

Lemma choices_length (choose : nat -> nat) (k : nat) :
  List.length (Batch.choices choose k) = k.
Proof. unfold Batch.choices. now rewrite length_map, length_seq. Qed.

(** C4, as the code has it.  [runWithConcurrency], given a target and a
    positive limit, resolves with exactly one result for each target whose
    handler call is fulfilled and none for a target whose call throws; a
    throw stops neither the runner nor the other targets.  [scrapeEmails],
    whose workers never throw, returns exactly one result per site. *)
Theorem one_result_per_fulfilled_worker :
  forall (T R : Type) (items : list T) (handler : T -> Batch.Settled R)
         (limit : Z) (choose : nat -> nat)
         (self : Scraper.EmailScraper) (net : Scraper.Net)
         (sites : list Scraper.Site) (schedule : list nat),
    items <> [] ->
    1 <= limit ->
    1 <= Scraper.concurrency (Scraper.config self) ->
    List.length schedule = List.length sites ->
    (exists rs,
        Batch.runWithConcurrency items handler limit choose = Some rs /\
        Permutation rs (flat_map (fulfilled handler) items)) /\
    (exists rs,
        Scraper.scrapeEmails self net schedule sites = Some rs /\
        Permutation (map Some rs) (map (site_result self net) sites)).
Proof.
  intros T R items handler limit choose self net sites schedule
         Hitems Hlimit Hconc Hlen.
  split.
  - unfold Batch.runWithConcurrency. apply runner_resolves; auto.
    now rewrite choices_length.
  - apply scrapeEmails_returns; [exact Hconc | lia].
Qed.

Lemma one_result_per_fulfilled_worker_witness :
  (exists rs,
      Batch.runWithConcurrency [1; 2; 3; 4; 5] flaky_handler 2 (fun k => k) = Some rs /\
      Permutation rs (flat_map (fulfilled flaky_handler) [1; 2; 3; 4; 5])) /\
  (exists rs,
      Scraper.scrapeEmails pair_scraper net_404 [1; 0; 0]%nat three_sites = Some rs /\
      Permutation (map Some rs) (map (site_result pair_scraper net_404) three_sites)).
Proof.
  apply (one_result_per_fulfilled_worker
           Z Z [1; 2; 3; 4; 5] flaky_handler 2 (fun k => k)
           pair_scraper net_404 three_sites [1; 0; 0]%nat).
  - discriminate.
  - lia.
  - vm_compute. discriminate.
  - reflexivity.
Defined.

(** C4, as stated, fails: of five targets one of whose workers throws, four
    results come back. *)
Lemma thrown_worker_has_no_result :
  ~ one_result_per_target [1; 2; 3; 4; 5] flaky_handler 2 (fun k => k).
Proof.
  intros (rs & Hrun & Hlen). vm_compute in Hrun.
  injection Hrun as <-. discriminate Hlen.
Qed.

(** C5, as the code has it.  In [runWithConcurrency] the workers in flight
    are as many as [activeCount] says and never more than the limit, and
    when a worker settles while targets are left the next one starts at once,
    so that the window stays full.  [scrapeEmails] keeps at most
    [concurrency] promises pending too, but admits by whole chunks: while
    more than one promise of the current chunk is pending, a settlement
    starts no site of the later chunks. *)
Theorem sliding_window_and_static_chunks :
  forall (T R : Type) (items : list T) (handler : T -> Batch.Settled R)
         (limit : Z) (schedule : list nat) (choice : nat)
         (self : Scraper.EmailScraper) (net : Scraper.Net)
         (sites : list Scraper.Site) (schedule' : list nat) (choice' : nat),
    1 <= Scraper.concurrency (Scraper.config self) ->
    (let st := Batch.run items handler schedule (Batch.start items limit) in
     let st' := Batch.settle items handler choice st in
     Z.of_nat (List.length (Batch.pending st)) <= Z.max 0 limit /\
     Batch.activeCount st = Z.of_nat (List.length (Batch.pending st)) /\
     (Batch.pending st <> [] ->
      (Batch.index st < List.length items)%nat ->
      Batch.index st' = S (Batch.index st) /\
      In (Batch.index st) (Batch.pending st') /\
      List.length (Batch.pending st') = List.length (Batch.pending st))) /\
    (exists s0,
        Scraper.scrapeEmails_start self sites = Some s0 /\
        let s := Scraper.run self net schedule' s0 in
        Z.of_nat (List.length (Scraper.pending s))
        <= Scraper.concurrency (Scraper.config self) /\
        ((1 < List.length (Scraper.pending s))%nat ->
         Scraper.batches (Scraper.settle self net choice' s) = Scraper.batches s)).
Proof.
  intros T R items handler limit schedule choice self net sites schedule' choice' Hc.
  split.
  - intros st st'.
    destruct (inv_reachable items handler limit schedule) as [done Hinv].
    fold st in Hinv. split; [|split].
    + destruct Hinv as [_ _ _ _ _ Hb _]. lia.
    + now destruct Hinv.
    + intros Hne Hmore.
      destruct (inv_settle items handler limit choice st done Hinv Hne)
        as (cur & _ & _ & _ & Hnext).
      now apply Hnext.
  - destruct (scrape_inv_start self net sites Hc) as (s0 & Hstart & _ & _).
    exists s0. split; [exact Hstart|]. intros s. split.
    + pose proof (scrape_in_flight self net sites schedule' s0 Hc Hstart).
      fold s in H. lia.
    + apply scrape_static.
Qed.

Lemma sliding_window_and_static_chunks_witness :
  (let st := Batch.run [1; 2; 3; 4; 5] flaky_handler [1%nat]
                       (Batch.start [1; 2; 3; 4; 5] 2) in
   let st' := Batch.settle [1; 2; 3; 4; 5] flaky_handler 0 st in
   Z.of_nat (List.length (Batch.pending st)) <= Z.max 0 2 /\
   Batch.activeCount st = Z.of_nat (List.length (Batch.pending st)) /\
   (Batch.pending st <> [] ->
    (Batch.index st < List.length [1; 2; 3; 4; 5])%nat ->
    Batch.index st' = S (Batch.index st) /\
    In (Batch.index st) (Batch.pending st') /\
    List.length (Batch.pending st') = List.length (Batch.pending st))) /\
  (exists s0,
      Scraper.scrapeEmails_start pair_scraper three_sites = Some s0 /\
      let s := Scraper.run pair_scraper net_404 [] s0 in
      Z.of_nat (List.length (Scraper.pending s))
      <= Scraper.concurrency (Scraper.config pair_scraper) /\
      ((1 < List.length (Scraper.pending s))%nat ->
       Scraper.batches (Scraper.settle pair_scraper net_404 0 s)
       = Scraper.batches s)).
Proof.
  apply (sliding_window_and_static_chunks
           Z Z [1; 2; 3; 4; 5] flaky_handler 2 [1%nat] 0%nat
           pair_scraper net_404 three_sites [] 0%nat).
  vm_compute. discriminate.
Defined.

(** C5, as stated, fails on [scrapeEmails]: with [concurrency] 2 and three
    sites, the settlement of the first promise leaves the third site
    waiting. *)
Lemma scrapeEmails_waits_for_the_chunk :
  ~ admits_on_completion pair_scraper net_404 three_sites.
Proof.
  intros H.
  pose proof (H [] 0%nat _ eq_refl) as H'. vm_compute in H'.
  assert (Habs : (2 <= 1)%nat) by (apply H'; discriminate).
  lia.
Qed.

(** C9 at the empty sequence: no worker is started, so [runNext] never runs
    and [resolve] is never called; whatever the handler, the limit and the
    schedule, the promise stays pending. *)
Theorem runWithConcurrency_empty_stays_pending :
  forall (T R : Type) (handler : T -> Batch.Settled R) (limit : Z),
    (forall schedule,
        Batch.resolved (Batch.run [] handler schedule (@Batch.start T R [] limit))
        = None) /\
    (forall choose, Batch.runWithConcurrency [] handler limit choose = None).
Proof.
  intros T R handler limit.
  assert (H : forall schedule,
             Batch.resolved (Batch.run [] handler schedule (@Batch.start T R [] limit))
             = None).
  { intros schedule. rewrite runner_stuck; [reflexivity | simpl; lia]. }
  split; [exact H|]. intros choose. apply H.
Qed.

(** ** The orchestrator [processUrlBatch] *)

Lemma Permutation_filter_compat {A} (f : A -> bool) (l l' : list A) :
  Permutation l l' -> Permutation (filter f l) (filter f l').
Proof.
  induction 1 as [| x l l' _ IH | x y l | l l' l'' _ IH1 _ IH2]; cbn [filter].
  - constructor.
  - destruct (f x); [now constructor | exact IH].
  - destruct (f x), (f y); try reflexivity. apply perm_swap.
  - etransitivity; eauto.
Qed.

Lemma worker_fulfilled net (batch : list Batch.LinkState) :
  flat_map (fulfilled (Batch.worker net)) batch = map (scraped net) batch.
Proof. induction batch as [|x l IH]; [reflexivity|]. cbn. now rewrite IH. Qed.

Section Orchestrator.
Variable net : Batch.Net.
Variable choose : Z -> nat -> nat.
Variable links : list Batch.LinkState.
Variables batchSize concurrency delay : Z.
Hypothesis batchSize_pos : 1 <= batchSize.
Hypothesis concurrency_pos : 1 <= concurrency.

Local Abbreviation rest_from i := (skipn (Z.to_nat i) links).
Local Abbreviation steps_of l :=
  (separated_by (Batch.Idle delay)
                (map Batch.RunBatch (chunks_of (Z.to_nat batchSize) l))).

(** The loop from offset [i]: one runner call per chunk of what is left,
    a pause after each chunk but the last, and the results with e-mails
    collected. *)
Lemma batch_loop_spec fuel : forall i allResults trace,
  0 <= i ->
  (List.length (rest_from i) <= fuel)%nat ->
  exists rs,
    Batch.batch_loop fuel net choose links batchSize concurrency delay
                     i allResults trace
    = Some (allResults ++ rs, trace ++ steps_of (rest_from i)) /\
    Permutation rs (filter Batch.has_emails (map (scraped net) (rest_from i))).
Proof.
  assert (Hsz : (1 <= Z.to_nat batchSize)%nat) by lia.
  induction fuel as [|fuel IH]; intros i allResults trace Hi Hfuel;
    pose proof Hfuel as Hlen; rewrite length_skipn in Hlen;
    cbn [Batch.batch_loop];
    destruct (Z.ltb_spec i (Z.of_nat (List.length links))) as [Hin | Hout];
    try lia.
  - exists []. rewrite skipn_all2 by lia. rewrite chunks_of_nil. cbn.
    now rewrite !app_nil_r.
  - set (rest := rest_from i) in *.
    assert (Hne : rest <> []).
    { intros E. apply (f_equal (@List.length _)) in E. subst rest.
      rewrite length_skipn in E. simpl in E. lia. }
    rewrite slice_window by lia. fold rest.
    set (batch := firstn (Z.to_nat batchSize) rest).
    assert (Hbatch : batch <> []).
    { subst batch. destruct rest as [|x rest']; [congruence|].
      destruct (Z.to_nat batchSize); [lia | discriminate]. }
    destruct (runner_resolves batch (Batch.worker net) concurrency
                (Batch.choices (choose i) (List.length batch)) Hbatch
                concurrency_pos) as (brs & Hrun & Hperm).
    { now rewrite choices_length. }
    unfold Batch.runWithConcurrency. rewrite Hrun.
    rewrite worker_fulfilled in Hperm.
    assert (Hrest' : rest_from (i + batchSize) = skipn (Z.to_nat batchSize) rest).
    { subst rest. rewrite skipn_skipn. f_equal. lia. }
    pose proof (skipn_shorter (Z.to_nat batchSize) Hsz rest Hne) as Hshort.
    assert (Hrest : List.length rest = (List.length links - Z.to_nat i)%nat)
      by (subst rest; apply length_skipn).
    match goal with
    | |- context [Batch.batch_loop fuel _ _ _ _ _ _ _ ?all ?tr] =>
        destruct (IH (i + batchSize) all tr) as (rs' & Hloop & Hperm');
        [lia | rewrite Hrest'; lia |]
    end.
    rewrite Hloop. rewrite Hrest' in *.
    exists (filter Batch.has_emails brs ++ rs'). split.
    + f_equal. f_equal; [now rewrite app_assoc|].
      rewrite (chunks_of_cons _ Hsz rest Hne). fold batch.
      cbn [map]. rewrite <- app_assoc.
      destruct (Z.ltb_spec (i + batchSize) (Z.of_nat (List.length links))) as [Hmore | Hlast].
      * assert (Hleft : (0 < List.length (skipn (Z.to_nat batchSize) rest))%nat)
          by (rewrite length_skipn; lia).
        destruct (skipn (Z.to_nat batchSize) rest) as [|y tail];
          [simpl in Hleft; lia|].
        rewrite (chunks_of_cons _ Hsz (y :: tail)) by discriminate.
        cbn [map separated_by app]. rewrite <- app_assoc. reflexivity.
      * assert (Hleft : List.length (skipn (Z.to_nat batchSize) rest) = 0%nat)
          by (rewrite length_skipn; lia).
        destruct (skipn (Z.to_nat batchSize) rest); [|discriminate].
        rewrite chunks_of_nil. cbn [map separated_by].
        now rewrite app_nil_r.
    + rewrite <- (firstn_skipn (Z.to_nat batchSize) rest) at 1.
      rewrite map_app, filter_app. apply Permutation_app; [|exact Hperm'].
      apply Permutation_filter_compat. exact Hperm.
  - exists []. rewrite skipn_all2 by lia. rewrite chunks_of_nil. cbn.
    now rewrite !app_nil_r.
Qed.

End Orchestrator.

Lemma processUrlBatch_spec net choose links options :
  let size := Batch.default (Batch.batchSize options) 50 in
  let delay := Batch.default (Batch.delayBetweenBatches options) 3000 in
  1 <= size ->
  1 <= Batch.default (Batch.concurrency options) 10 ->
  exists results,
    Batch.processUrlBatch net choose links options
    = Some (results,
            separated_by (Batch.Idle delay)
                         (map Batch.RunBatch (chunks_of (Z.to_nat size) links))) /\
    Permutation results (filter Batch.has_emails (map (scraped net) links)).
Proof.
  intros size delay Hsize Hconc. unfold Batch.processUrlBatch.
  destruct (batch_loop_spec net choose links size
              (Batch.default (Batch.concurrency options) 10) delay
              Hsize Hconc (List.length links) 0 [] [])
    as (rs & Hloop & Hperm); [lia | simpl; lia |].
  exists rs. split; [exact Hloop | exact Hperm].
Qed.

(** The loop from offset [i], chunk by chunk: the runner of each chunk of
    what is left is run to its resolution, its value is a rearrangement of
    the results of that chunk's targets, and what it has with e-mails is
    appended to the report before the next chunk is taken. *)
Lemma batch_loop_outputs net choose links batchSize concurrency delay :
  1 <= batchSize -> 1 <= concurrency ->
  forall fuel i allResults trace,
    0 <= i ->
    (List.length (skipn (Z.to_nat i) links) <= fuel)%nat ->
    let chunks := chunks_of (Z.to_nat batchSize) (skipn (Z.to_nat i) links) in
    exists outs,
      batch_outputs net choose concurrency batchSize i chunks = Some outs /\
      Forall2 (fun chunk out => Permutation out (map (scraped net) chunk))
              chunks outs /\
      Batch.batch_loop fuel net choose links batchSize concurrency delay
                       i allResults trace
      = Some (allResults ++ flat_map (filter Batch.has_emails) outs,
              trace ++ separated_by (Batch.Idle delay) (map Batch.RunBatch chunks)).
Proof.
  intros Hsize Hconc.
  assert (Hsz : (1 <= Z.to_nat batchSize)%nat) by lia.
  induction fuel as [|fuel IH]; intros i allResults trace Hi Hfuel chunks;
    pose proof Hfuel as Hlen; rewrite length_skipn in Hlen;
    subst chunks; cbn [Batch.batch_loop];
    destruct (Z.ltb_spec i (Z.of_nat (List.length links))) as [Hin | Hout];
    try lia.
  - exists []. rewrite skipn_all2 by lia. rewrite chunks_of_nil. cbn.
    rewrite !app_nil_r. repeat split; constructor.
  - set (rest := skipn (Z.to_nat i) links) in *.
    assert (Hrest : List.length rest = (List.length links - Z.to_nat i)%nat)
      by (subst rest; apply length_skipn).
    assert (Hne : rest <> []) by (destruct rest; [cbn in Hrest; lia | discriminate]).
    rewrite slice_window by lia. fold rest.
    rewrite (chunks_of_cons _ Hsz rest Hne).
    set (batch := firstn (Z.to_nat batchSize) rest).
    assert (Hbatch : batch <> []).
    { subst batch. destruct rest as [|x rest']; [congruence|].
      destruct (Z.to_nat batchSize); [lia | discriminate]. }
    destruct (runner_resolves batch (Batch.worker net) concurrency
                (Batch.choices (choose i) (List.length batch)) Hbatch Hconc)
      as (brs & Hrun & Hperm).
    { now rewrite choices_length. }
    rewrite worker_fulfilled in Hperm.
    assert (Hcall : Batch.runWithConcurrency batch (Batch.worker net) concurrency
                                             (choose i) = Some brs)
      by exact Hrun.
    cbn [batch_outputs]. rewrite Hcall.
    assert (Hrest' : skipn (Z.to_nat (i + batchSize)) links
                     = skipn (Z.to_nat batchSize) rest).
    { subst rest. rewrite skipn_skipn. f_equal. lia. }
    pose proof (skipn_shorter (Z.to_nat batchSize) Hsz rest Hne) as Hshort.
    match goal with
    | |- context [Batch.batch_loop fuel _ _ _ _ _ _ _ ?all ?tr] =>
        destruct (IH (i + batchSize) all tr) as (outs & Houts & Hall & Hloop);
        [lia | rewrite Hrest'; lia |]
    end.
    rewrite Hrest' in Houts, Hall, Hloop. rewrite Houts, Hloop.
    exists (brs :: outs). split; [reflexivity|]. split; [now constructor|].
    f_equal. cbn [flat_map map]. f_equal; [now rewrite <- app_assoc|].
    destruct (Z.ltb_spec (i + batchSize) (Z.of_nat (List.length links))) as [Hmore | Hlast].
    + assert (Hleft : (0 < List.length (skipn (Z.to_nat batchSize) rest))%nat)
        by (rewrite length_skipn; lia).
      destruct (skipn (Z.to_nat batchSize) rest) as [|y tail];
        [simpl in Hleft; lia|].
      rewrite (chunks_of_cons _ Hsz (y :: tail)) by discriminate.
      cbn [map separated_by]. rewrite <- !app_assoc. reflexivity.
    + assert (Hleft : List.length (skipn (Z.to_nat batchSize) rest) = 0%nat)
        by (rewrite length_skipn; lia).
      destruct (skipn (Z.to_nat batchSize) rest); [|discriminate].
      rewrite chunks_of_nil. cbn [map separated_by].
      now rewrite app_nil_r.
  - exists []. rewrite skipn_all2 by lia. rewrite chunks_of_nil. cbn.
    rewrite !app_nil_r. repeat split; constructor.
Qed.

(** C6.  With a positive [batchSize] (and a positive [concurrency], so that
    each runner resolves), [processUrlBatch] cuts the input into consecutive
    chunks, all of [batchSize] targets except possibly the last, which is not
    empty.  It treats them strictly one after the other: for each chunk in
    turn the runner is called on that chunk alone and awaited; its promise
    resolves with a result for every target of the chunk, and what it found
    is appended to the report before the next chunk is started, so that the
    report is made of the chunks' outputs in the order of the chunks.  It
    pauses for [delayBetweenBatches] between two consecutive chunks and
    nowhere else. *)
Theorem batches_in_sequence_with_pauses :
  forall (net : Batch.Net) (choose : Z -> nat -> nat)
         (links : list Batch.LinkState) (options : Batch.Options),
    let size := Batch.default (Batch.batchSize options) 50 in
    let limit := Batch.default (Batch.concurrency options) 10 in
    let delay := Batch.default (Batch.delayBetweenBatches options) 3000 in
    1 <= size ->
    1 <= limit ->
    exists results chunks outs,
      Batch.processUrlBatch net choose links options
      = Some (results, separated_by (Batch.Idle delay) (map Batch.RunBatch chunks)) /\
      List.concat chunks = links /\
      Forall (fun c => 1 <= List.length c <= Z.to_nat size)%nat chunks /\
      Forall (fun c => List.length c = Z.to_nat size) (removelast chunks) /\
      batch_outputs net choose limit size 0 chunks = Some outs /\
      Forall2 (fun chunk out => Permutation out (map (scraped net) chunk))
              chunks outs /\
      results = flat_map (filter Batch.has_emails) outs.
Proof.
  intros net choose links options size limit delay Hsize Hlimit.
  assert (Hpos : (1 <= Z.to_nat size)%nat) by lia.
  destruct (batch_loop_outputs net choose links size limit delay Hsize Hlimit
              (List.length links) 0 [] [])
    as (outs & Houts & Hall & Hloop); [lia | cbn; lia |].
  cbn [Z.to_nat skipn app] in Houts, Hall, Hloop.
  exists (flat_map (filter Batch.has_emails) outs),
         (chunks_of (Z.to_nat size) links), outs.
  split; [exact Hloop|]. split; [now apply chunks_of_concat|].
  split; [now apply chunks_of_sizes|]. split; [now apply chunks_of_full|].
  split; [exact Houts|]. split; [exact Hall | reflexivity].
Qed.

Lemma batches_in_sequence_with_pauses_witness :
  exists results chunks outs,
    Batch.processUrlBatch sample_net oldest_first five_links batches_of_two
    = Some (results, separated_by (Batch.Idle 3000) (map Batch.RunBatch chunks)) /\
    List.concat chunks = five_links /\
    Forall (fun c => 1 <= List.length c <= Z.to_nat 2)%nat chunks /\
    Forall (fun c => List.length c = Z.to_nat 2) (removelast chunks) /\
    batch_outputs sample_net oldest_first 10 2 0 chunks = Some outs /\
    Forall2 (fun chunk out => Permutation out (map (scraped sample_net) chunk))
            chunks outs /\
    results = flat_map (filter Batch.has_emails) outs.
Proof.
  apply (batches_in_sequence_with_pauses
           sample_net oldest_first five_links batches_of_two).
  - vm_compute. discriminate.
  - vm_compute. discriminate.
Defined.

(** Five targets in batches of two: three batches, of 2, 2 and 1 targets,
    and two pauses; the report keeps the two targets with an e-mail. *)
Example five_targets_in_batches_of_two :
  Batch.processUrlBatch sample_net oldest_first five_links batches_of_two
  = Some ([ Batch.mkScraped "A" "http://good.test" ["contact@good.test"];
            Batch.mkScraped "E" "http://good.test" ["contact@good.test"] ],
          [ Batch.RunBatch [ Batch.mkLink "A" "http://good.test";
                             Batch.mkLink "B" "http://bad.test" ];
            Batch.Idle 3000;
            Batch.RunBatch [ Batch.mkLink "C" "http://good.test/about";
                             Batch.mkLink "D" "ftp://files.test" ];
            Batch.Idle 3000;
            Batch.RunBatch [ Batch.mkLink "E" "http://good.test" ] ]).
Proof. vm_compute. reflexivity. Qed.

Lemma has_emails_iff (r : Batch.ScrapedResult) :
  Batch.has_emails r = true <-> Batch.emails r <> [].
Proof.
  unfold Batch.has_emails. destruct (Batch.emails r); cbn; split; try easy.
Qed.

(** C7.  The report of [processUrlBatch] holds exactly the per-target results
    that have at least one e-mail: it is a rearrangement of those results,
    so none with e-mails is missing and none without e-mails appears. *)
Theorem report_keeps_results_with_emails :
  forall (net : Batch.Net) (choose : Z -> nat -> nat)
         (links : list Batch.LinkState) (options : Batch.Options),
    1 <= Batch.default (Batch.batchSize options) 50 ->
    1 <= Batch.default (Batch.concurrency options) 10 ->
    exists results trace,
      Batch.processUrlBatch net choose links options = Some (results, trace) /\
      Permutation results (filter Batch.has_emails (map (scraped net) links)) /\
      (forall r, In r results -> Batch.emails r <> []) /\
      (forall item, In item links -> Batch.emails (scraped net item) <> [] ->
                    In (scraped net item) results).
Proof.
  intros net choose links options Hsize Hconc.
  destruct (processUrlBatch_spec net choose links options Hsize Hconc)
    as (results & Hrun & Hperm).
  exists results. eexists. split; [exact Hrun|]. split; [exact Hperm|]. split.
  - intros r Hin. apply (Permutation_in _ Hperm) in Hin.
    apply filter_In in Hin. now apply has_emails_iff.
  - intros item Hin Hmail. apply (Permutation_in _ (Permutation_sym Hperm)).
    apply filter_In. split; [now apply in_map | now apply has_emails_iff].
Qed.

Lemma report_keeps_results_with_emails_witness :
  exists results trace,
    Batch.processUrlBatch sample_net oldest_first five_links batches_of_two
    = Some (results, trace) /\
    Permutation results (filter Batch.has_emails (map (scraped sample_net) five_links)) /\
    (forall r, In r results -> Batch.emails r <> []) /\
    (forall item, In item five_links ->
                  Batch.emails (scraped sample_net item) <> [] ->
                  In (scraped sample_net item) results).
Proof.
  apply (report_keeps_results_with_emails
           sample_net oldest_first five_links batches_of_two).
  - vm_compute. discriminate.
  - vm_compute. discriminate.
Defined.


(** * Further properties of the code *)

(** ** The pattern and the extractors *)

Lemma rep_inv (c : ascii -> bool) (k : string -> option string) :
  forall s n m r,
    Regex.rep c n m k s = Some r ->
    exists p s',
      s = (p ++ s')%string /\ all_chars c p = true /\
      (n <= String.length p)%nat /\
      (forall b, m = Some b -> (String.length p <= b)%nat) /\
      k s' = Some r.
Proof.
  assert (Hstop : forall s n m r,
             match n with O => k s | _ => None end = Some r ->
             exists p s',
               s = (p ++ s')%string /\ all_chars c p = true /\
               (n <= String.length p)%nat /\
               (forall b, m = Some b -> (String.length p <= b)%nat) /\
               k s' = Some r).
  { intros s n m r H. destruct n; [|discriminate].
    exists EmptyString, s. cbn. repeat split; auto. intros; lia. }
  induction s as [|x s IH]; intros n m r H; cbn [Regex.rep] in H.
  - now apply Hstop.
  - destruct (andb (c x) match m with Some 0%nat => false | _ => true end) eqn:E;
      [|now apply Hstop].
    destruct (Regex.rep c (Nat.pred n) (option_map Nat.pred m) k s) as [r'|] eqn:Hrec;
      [|now apply Hstop].
    injection H as <-. apply andb_true_iff in E. destruct E as [Hc Hm].
    destruct (IH _ _ _ Hrec) as (p & s' & -> & Hall & Hn & Hb & Hk).
    exists (String x p), s'. cbn [String.append all_chars String.length].
    rewrite Hc, Hall. repeat split; auto; [lia|].
    intros b ->. destruct b; [discriminate|].
    specialize (Hb b eq_refl). lia.
Qed.

Lemma append_assoc (a b c : string) :
  ((a ++ b) ++ c)%string = (a ++ b ++ c)%string.
Proof. induction a as [|x a IH]; cbn; [reflexivity | now rewrite IH]. Qed.

Lemma single_char (set p : string) (x : ascii) :
  set = String x EmptyString ->
  all_chars (Regex.one_of set) p = true ->
  (1 <= String.length p)%nat -> (String.length p <= 1)%nat ->
  p = set.
Proof.
  intros -> Hall Hlo Hhi.
  destruct p as [|y [|z p]]; cbn [String.length] in *; try lia.
  cbn in Hall. rewrite !orb_false_r, andb_true_r in Hall.
  apply Ascii.eqb_eq in Hall. now subst.
Qed.

(** An anchored match of [EMAIL_REGEX] splits the text into an address of
    the shape [local@domain.tld] and the rest. *)
Lemma email_match_inv (s rest : string) :
  Regex.match_items EMAIL_REGEX Some s = Some rest ->
  exists m, s = (m ++ rest)%string /\ address_shape m.
Proof.
  unfold EMAIL_REGEX. cbn [Regex.match_items]. intros H.
  apply rep_inv in H. destruct H as (p1 & s1 & -> & H1 & L1 & _ & H).
  apply rep_inv in H. destruct H as (p2 & s2 & -> & H2 & L2 & B2 & H).
  apply rep_inv in H. destruct H as (p3 & s3 & -> & H3 & L3 & _ & H).
  apply rep_inv in H. destruct H as (p4 & s4 & -> & H4 & L4 & B4 & H).
  apply rep_inv in H. destruct H as (p5 & s5 & -> & H5 & L5 & _ & H).
  injection H as <-.
  assert (p2 = "@") by (eapply single_char; eauto).
  assert (p4 = ".") by (eapply single_char; eauto).
  subst p2 p4.
  exists (p1 ++ "@" ++ p3 ++ "." ++ p5)%string. split.
  - now rewrite <- !append_assoc.
  - exists p1, p3, p5. repeat split; auto.
Qed.

Lemma substring_prefix (p rest : string) :
  String.substring 0 (String.length p) (p ++ rest) = p.
Proof.
  induction p as [|x p IH]; cbn.
  - now destruct rest.
  - now rewrite IH.
Qed.

Lemma length_append (a b : string) :
  String.length (a ++ b) = (String.length a + String.length b)%nat.
Proof. induction a as [|x a IH]; cbn; [reflexivity | now rewrite IH]. Qed.

Lemma match_here_inv (s m : string) :
  Regex.match_here EMAIL_REGEX s = Some m ->
  address_shape m /\ exists rest, s = (m ++ rest)%string.
Proof.
  unfold Regex.match_here.
  destruct (Regex.match_items EMAIL_REGEX Some s) as [rest|] eqn:E; [|discriminate].
  intros H. injection H as <-.
  destruct (email_match_inv _ _ E) as (m & -> & Hshape).
  rewrite length_append, Nat.add_sub, substring_prefix. eauto.
Qed.

(** Every match reported by the global search is an anchored match at some
    position of the text. *)
Lemma scan_inv (r : list Regex.item) (m : string) :
  forall s skip,
    In m (Regex.scan r skip s) ->
    exists before here,
      s = (before ++ here)%string /\ Regex.match_here r here = Some m.
Proof.
  induction s as [|x s IH]; intros skip H; cbn [Regex.scan] in H; [contradiction|].
  assert (Hlater : forall k, In m (Regex.scan r k s) ->
                             exists before here,
                               String x s = (before ++ here)%string /\
                               Regex.match_here r here = Some m).
  { intros k Hk. destruct (IH _ Hk) as (b & h & -> & Hm).
    exists (String x b), h. split; [reflexivity | exact Hm]. }
  destruct skip; [|eauto].
  destruct (Regex.match_here r (String x s)) as [m'|] eqn:E; [|eauto].
  destruct H as [<- | H]; [|eauto].
  exists EmptyString, (String x s). split; [reflexivity | exact E].
Qed.

Lemma includes_at_sign (a b : string) :
  Js.includes (a ++ "@" ++ b) "@" = true.
Proof.
  induction a as [|x a IH]; cbn [String.append Js.includes].
  - cbn. now destruct b.
  - destruct (String.prefix "@" (String x (a ++ String "@" b))); auto.
Qed.

Lemma includes_append_left (a b p : string) :
  Js.includes b p = true -> Js.includes (a ++ b) p = true.
Proof.
  intros H. induction a as [|x a IH]; [exact H|].
  cbn [String.append Js.includes]. now destruct (String.prefix p _).
Qed.

Lemma in_spread_set (x : string) (l : list string) :
  In x (Js.spread_set l) -> In x l.
Proof. intros H. now apply set_insert_all_spec in H. Qed.

Lemma scraper_emails_are_matches self body email :
  In email (Scraper.extractEmails self body) ->
  In email (Regex.match_all EMAIL_REGEX body).
Proof.
  unfold Scraper.extractEmails. intros H. apply filter_In in H.
  now apply in_spread_set.
Qed.

Lemma batch_emails_are_matches body email :
  In email (Batch.extractEmails body) ->
  In email (Regex.match_all EMAIL_REGEX body).
Proof.
  unfold Batch.extractEmails. intros H. apply in_spread_set in H.
  now apply filter_In in H.
Qed.

(** X1.  Every address returned by either extractor occurs in the text and
    has the shape [local@domain.tld]: a non-empty local part of the
    characters [A-Za-z0-9._%+-], a non-empty domain of [A-Za-z0-9.-], and a
    last label of at least two letters. *)
Theorem extracted_addresses_have_shape :
  forall (self : Scraper.EmailScraper) (body email : string),
    In email (Scraper.extractEmails self body) \/ In email (Batch.extractEmails body) ->
    address_shape email /\
    exists before rest, body = (before ++ email ++ rest)%string.
Proof.
  intros self body email H.
  assert (Hm : In email (Regex.match_all EMAIL_REGEX body)).
  { destruct H; [eapply scraper_emails_are_matches | eapply batch_emails_are_matches];
      eauto. }
  apply scan_inv in Hm. destruct Hm as (before & here & -> & Hhere).
  apply match_here_inv in Hhere. destruct Hhere as (Hshape & rest & ->).
  split; [exact Hshape | eauto].
Qed.

Lemma extracted_addresses_have_shape_witness :
  address_shape "contact@good.test" /\
  exists before rest,
    "write to contact@good.test now" = (before ++ "contact@good.test" ++ rest)%string.
Proof.
  apply (extracted_addresses_have_shape default_scraper
           "write to contact@good.test now" "contact@good.test").
  left. vm_compute. left. reflexivity.
Defined.

(** X2.  A text without the character [@] yields no address, from either
    extractor. *)
Theorem no_at_sign_no_address :
  forall (self : Scraper.EmailScraper) (body : string),
    Js.includes body "@" = false ->
    Scraper.extractEmails self body = [] /\ Batch.extractEmails body = [].
Proof.
  intros self body Hno.
  assert (Hnone : Regex.match_all EMAIL_REGEX body = []).
  { destruct (Regex.match_all EMAIL_REGEX body) as [|m l] eqn:E; [reflexivity|].
    assert (Hm : In m (Regex.match_all EMAIL_REGEX body)) by (rewrite E; now left).
    apply scan_inv in Hm. destruct Hm as (before & here & -> & Hhere).
    apply match_here_inv in Hhere.
    destruct Hhere as ((loc & dom & tld & -> & _) & rest & ->).
    rewrite !append_assoc in Hno.
    rewrite includes_append_left in Hno; [discriminate|].
    apply includes_at_sign. }
  unfold Scraper.extractEmails, Batch.extractEmails. now rewrite Hnone.
Qed.

Lemma no_at_sign_no_address_witness :
  Scraper.extractEmails default_scraper "no emails here" = [] /\
  Batch.extractEmails "no emails here" = [].
Proof.
  apply (no_at_sign_no_address default_scraper "no emails here"). reflexivity.
Defined.

Lemma substring_all (s : string) : String.substring 0 (String.length s) s = s.
Proof. induction s as [|x s IH]; cbn; [reflexivity | now rewrite IH]. Qed.

Lemma substring_split (n : nat) : forall s,
  (n <= String.length s)%nat ->
  s = (String.substring 0 n s ++ String.substring n (String.length s - n) s)%string.
Proof.
  induction n as [|n IH]; intros s Hn.
  - rewrite Nat.sub_0_r, substring_all. now destruct s.
  - destruct s as [|x s]; cbn in Hn; [lia|]. cbn. f_equal. apply IH. lia.
Qed.

Lemma endsWith_inv (s p : string) :
  Js.endsWith s p = true -> exists before, s = (before ++ p)%string.
Proof.
  unfold Js.endsWith. intros H. apply andb_true_iff in H. destruct H as [Hle Heq].
  apply Nat.leb_le in Hle. apply String.eqb_eq in Heq.
  exists (String.substring 0 (String.length s - String.length p) s).
  pose proof (substring_split (String.length s - String.length p) s) as H.
  replace (String.length s - (String.length s - String.length p))%nat
    with (String.length p) in H by lia.
  rewrite Heq in H. apply H. lia.
Qed.

Lemma toLowerCase_append (a b : string) :
  Js.toLowerCase (a ++ b) = (Js.toLowerCase a ++ Js.toLowerCase b)%string.
Proof. induction a as [|x a IH]; cbn; [reflexivity | now rewrite IH]. Qed.

Lemma prefix_append (p b : string) : String.prefix p (p ++ b) = true.
Proof.
  induction p as [|x p IH]; cbn; [now destruct b|].
  destruct (ascii_dec x x); [exact IH | congruence].
Qed.

Lemma includes_suffix (a p : string) : Js.includes (a ++ p) p = true.
Proof.
  apply includes_append_left.
  pose proof (prefix_append p EmptyString) as H.
  assert (Hnil : (p ++ "")%string = p)
    by (clear; induction p as [|x p IH]; cbn; [reflexivity | now rewrite IH]).
  rewrite Hnil in H. destruct p; cbn [Js.includes]; now rewrite H.
Qed.

Lemma set_insert_all_complete (x : string) : forall l seen,
  In x l -> ~ In x seen -> In x (Js.set_insert_all seen l).
Proof.
  induction l as [|y l IH]; intros seen Hin Hseen; [contradiction|].
  cbn [Js.set_insert_all].
  destruct (existsb (String.eqb y) seen) eqn:E.
  - apply existsb_eqb_In in E. destruct Hin as [-> | Hin]; [contradiction|].
    now apply IH.
  - destruct (string_dec y x) as [-> | Hne]; [now left|].
    right. destruct Hin as [-> | Hin]; [congruence|].
    apply IH; [exact Hin|]. intros [-> | H]; [congruence | contradiction].
Qed.

Lemma excluded_suffix_false (patterns : list string) (email suffix : string) :
  Scraper.excluded_by patterns email = false ->
  In suffix patterns -> Js.toLowerCase suffix = suffix ->
  Js.endsWith email suffix = false.
Proof.
  intros Hex Hin Hlow.
  destruct (Js.endsWith email suffix) eqn:E; [|reflexivity].
  apply endsWith_inv in E. destruct E as [before ->].
  pose proof (excluded_by_false _ _ Hex suffix Hin) as H.
  rewrite toLowerCase_append, Hlow, includes_suffix in H. discriminate.
Qed.

(** X3.  The patterns given to the constructor are added to the built-in
    list and never replace it: no address returned by a scraper contains,
    case being ignored, a built-in exclusion or one of its own. *)
Theorem builtin_exclusions_always_apply :
  forall (cfg : Scraper.EmailScraperConfig) (body email pattern : string),
    In email (Scraper.extractEmails (Scraper.new_EmailScraper cfg) body) ->
    In pattern Scraper.EMAIL_EXCLUSIONS \/
    In pattern (Scraper.list_or (Scraper.opt_excludePatterns cfg) []) ->
    Js.includes (Js.toLowerCase email) (Js.toLowerCase pattern) = false.
Proof.
  intros cfg body email pattern Hin Hp.
  unfold Scraper.extractEmails in Hin. apply filter_In in Hin.
  destruct Hin as [_ Hkeep]. unfold Scraper.keep_email in Hkeep.
  destruct (negb (Js.includes email "@")); [discriminate|].
  apply negb_true_iff in Hkeep.
  eapply excluded_by_false; [exact Hkeep|].
  cbn [Scraper.new_EmailScraper Scraper.config Scraper.excludePatterns].
  apply in_or_app. exact Hp.
Qed.

Lemma builtin_exclusions_always_apply_witness :
  Js.includes (Js.toLowerCase "Sales@Shop.io") (Js.toLowerCase ".png") = false.
Proof.
  apply (builtin_exclusions_always_apply
           (Scraper.mkOptions None None None None (Some ["NoReply"]) None)
           "Sales@Shop.io, noreply@shop.io, logo@2x.PNG" "Sales@Shop.io" ".png").
  - vm_compute. left. reflexivity.
  - left. vm_compute. now left.
Defined.

(** X4.  The server's extractor is the stricter of the two: whatever a
    scraper built by the constructor returns for a text, the batch
    processor's [extractEmails] returns for that text too. *)
Theorem scraper_addresses_in_batch_addresses :
  forall (cfg : Scraper.EmailScraperConfig) (body email : string),
    In email (Scraper.extractEmails (Scraper.new_EmailScraper cfg) body) ->
    In email (Batch.extractEmails body).
Proof.
  intros cfg body email Hin.
  unfold Scraper.extractEmails in Hin. apply filter_In in Hin.
  destruct Hin as [Hmatch Hkeep]. apply in_spread_set in Hmatch.
  unfold Scraper.keep_email in Hkeep.
  destruct (Js.includes email "@") eqn:Hat; [|discriminate].
  cbn [negb] in Hkeep. apply negb_true_iff in Hkeep.
  cbn [Scraper.new_EmailScraper Scraper.config Scraper.excludePatterns] in Hkeep.
  unfold Batch.extractEmails, Js.spread_set.
  apply set_insert_all_complete; [|intros []].
  apply filter_In. split; [exact Hmatch|].
  rewrite Hat.
  rewrite (excluded_suffix_false _ _ ".png" Hkeep);
    [| apply in_or_app; left; cbn; tauto | reflexivity].
  rewrite (excluded_suffix_false _ _ ".jpg" Hkeep);
    [| apply in_or_app; left; cbn; tauto | reflexivity].
  reflexivity.
Qed.

Lemma scraper_addresses_in_batch_addresses_witness :
  In "Sales@Shop.io" (Batch.extractEmails "Sales@Shop.io, user@shop.io, logo@2x.png").
Proof.
  apply (scraper_addresses_in_batch_addresses
           Scraper.no_options "Sales@Shop.io, user@shop.io, logo@2x.png" "Sales@Shop.io").
  vm_compute. left. reflexivity.
Defined.

(** ** [processSite]: the whole behaviour of the retry loop *)

Lemma attempt_success_inv self url o r :
  Scraper.attempt self url o = inl r ->
  classify o = Success /\
  exists status body,
    o = Responds status (TextOk body) /\ response_ok status = true /\
    r = Scraper.mkResult url (Scraper.extractEmails self body) true None.
Proof.
  unfold Scraper.attempt, classify.
  destruct o as [status [body | e] | why e]; try discriminate;
    destruct (response_ok status) eqn:Hok; cbn [negb]; try discriminate.
  intros H. injection H as <-. split; [reflexivity|]. eauto.
Qed.

Lemma attempt_failure_inv self url o e :
  Scraper.attempt self url o = inr e -> classify o <> Success.
Proof.
  unfold Scraper.attempt, classify.
  destruct o as [status [body | e'] | [] e']; try discriminate;
    destruct (response_ok status); cbn [negb]; discriminate.
Qed.

(** The loop stops at the first attempt that does not throw, or at the
    attempt that uses up the retries. *)
Lemma loop_outcome self fetch url fuel : forall a c t r t',
  Scraper.processSite_loop fuel self fetch url a c t = Some (r, t') ->
  a <= Scraper.maxRetries (Scraper.config self) ->
  exists k,
    Z.of_nat k <= Scraper.maxRetries (Scraper.config self) - a /\
    t' = t ++ attempts_trace url (Scraper.retryDelay (Scraper.config self)) (S k) /\
    (forall j, (j < k)%nat -> throws self fetch url (c + j)) /\
    (Scraper.attempt self url (fetch (c + k)%nat) = inl r \/
     exists e,
       Scraper.attempt self url (fetch (c + k)%nat) = inr e /\
       Z.of_nat k = Scraper.maxRetries (Scraper.config self) - a /\
       r = failed url e).
Proof.
  induction fuel as [|fuel IH]; intros a c t r t' H Ha; [discriminate|].
  cbn [Scraper.processSite_loop] in H.
  destruct (Z.leb_spec a (Scraper.maxRetries (Scraper.config self))); [|lia].
  destruct (Scraper.attempt self url (fetch c)) as [res | err] eqn:E.
  - injection H as <- <-. exists 0%nat. rewrite Nat.add_0_r.
    repeat split; auto; [lia | intros; lia].
  - rewrite Z.gtb_ltb in H.
    destruct (Z.ltb_spec (Scraper.maxRetries (Scraper.config self)) (a + 1)).
    + injection H as <- <-. exists 0%nat. rewrite Nat.add_0_r.
      repeat split; auto; [lia | intros; lia |].
      right. exists err. repeat split; auto. lia.
    + apply IH in H; [|lia].
      destruct H as (k & Hk & -> & Hthrows & Hout).
      exists (S k). split; [lia|]. split; [|split].
      * rewrite <- !app_assoc. reflexivity.
      * intros j Hj. destruct j as [|j].
        -- rewrite Nat.add_0_r. exists err. exact E.
        -- replace (c + S j)%nat with (S c + j)%nat by lia. apply Hthrows. lia.
      * replace (c + S k)%nat with (S c + k)%nat by lia.
        destruct Hout as [Hok | (e & He & Hlast & Hr)]; [now left|].
        right. exists e. repeat split; auto. lia.
Qed.

(** X5.  With a non-negative [maxRetries], [processSite] always returns.  It
    makes between one and [maxRetries + 1] fetches, pausing [retryDelay]
    between two consecutive fetches and not after the last.  It stops at the
    first attempt that gets a 2xx response whose body can be read, and then
    reports success with the addresses extracted from that body; when every
    allowed attempt fails, the result is a failure with no address and an
    error message. *)
Theorem processSite_first_success_or_exhaustion :
  forall (self : Scraper.EmailScraper) (fetch : nat -> FetchSettled) (url : string),
    0 <= Scraper.maxRetries (Scraper.config self) ->
    exists result k,
      Scraper.processSite self fetch url
      = Some (result,
              attempts_trace url (Scraper.retryDelay (Scraper.config self)) (S k)) /\
      Z.of_nat k <= Scraper.maxRetries (Scraper.config self) /\
      Scraper.url result = url /\
      (forall j, (j < k)%nat -> classify (fetch j) <> Success) /\
      ((exists status body,
           fetch k = Responds status (TextOk body) /\ response_ok status = true /\
           result = Scraper.mkResult url (Scraper.extractEmails self body) true None)
       \/
       (classify (fetch k) <> Success /\
        Z.of_nat k = Scraper.maxRetries (Scraper.config self) /\
        Scraper.success result = false /\ Scraper.emails result = [] /\
        exists message, Scraper.error result = Some message)).
Proof.
  intros self fetch url Hm.
  destruct (processSite_total self fetch url) as (r & t & Hrun).
  pose proof Hrun as Hout. apply loop_outcome in Hout; [|exact Hm].
  destruct Hout as (k & Hk & -> & Hthrows & Hout). cbn [app Nat.add] in *.
  exists r, k. split; [exact Hrun|]. split; [lia|].
  assert (Hbefore : forall j, (j < k)%nat -> classify (fetch j) <> Success).
  { intros j Hj. destruct (Hthrows j Hj) as [e He].
    eapply attempt_failure_inv; eauto. }
  destruct Hout as [Hok | (e & He & Hlast & ->)].
  - apply attempt_success_inv in Hok.
    destruct Hok as (_ & status & body & Hf & Hs & ->).
    split; [reflexivity|]. split; [exact Hbefore|]. left. eauto.
  - split; [reflexivity|]. split; [exact Hbefore|]. right.
    split; [eapply attempt_failure_inv; eauto|]. split; [lia|].
    cbn. repeat split; eauto.
Qed.

Lemma processSite_first_success_or_exhaustion_witness :
  exists result k,
    Scraper.processSite default_scraper always_404 "http://shop.test"
    = Some (result, attempts_trace "http://shop.test" 1000 (S k)) /\
    Z.of_nat k <= 2 /\
    Scraper.url result = "http://shop.test" /\
    (forall j, (j < k)%nat -> classify (always_404 j) <> Success) /\
    ((exists status body,
         always_404 k = Responds status (TextOk body) /\ response_ok status = true /\
         result = Scraper.mkResult "http://shop.test"
                                   (Scraper.extractEmails default_scraper body) true None)
     \/
     (classify (always_404 k) <> Success /\
      Z.of_nat k = 2 /\
      Scraper.success result = false /\ Scraper.emails result = [] /\
      exists message, Scraper.error result = Some message)).
Proof.
  apply (processSite_first_success_or_exhaustion
           default_scraper always_404 "http://shop.test").
  vm_compute. discriminate.
Defined.

(** X6.  [processSite] makes no fetch at all exactly when [maxRetries] is
    negative, and then answers with the failure ['Maximum retries
    exceeded'], the [return] after the loop. *)
Theorem processSite_without_fetch :
  forall (self : Scraper.EmailScraper) (fetch : nat -> FetchSettled) (url : string),
    exists result trace,
      Scraper.processSite self fetch url = Some (result, trace) /\
      (fetch_count trace = 0%nat <-> Scraper.maxRetries (Scraper.config self) < 0) /\
      (Scraper.maxRetries (Scraper.config self) < 0 ->
       trace = [] /\
       result = Scraper.mkResult url [] false (Some "Maximum retries exceeded")).
Proof.
  intros self fetch url.
  destruct (processSite_total self fetch url) as (r & t & Hrun).
  exists r, t. split; [exact Hrun|].
  destruct (Z.lt_ge_cases (Scraper.maxRetries (Scraper.config self)) 0) as [Hneg | Hpos].
  - unfold Scraper.processSite in Hrun. cbn [Scraper.processSite_loop] in Hrun.
    destruct (Z.leb_spec 0 (Scraper.maxRetries (Scraper.config self))); [lia|].
    injection Hrun as <- <-. repeat split; auto.
  - pose proof Hrun as Hout. apply loop_outcome in Hout; [|exact Hpos].
    destruct Hout as (k & _ & -> & _). cbn [app attempts_trace].
    split; [|lia]. split; [|lia].
    unfold fetch_count. cbn [filter is_fetch List.length]. discriminate.
Qed.

(** X7.  Retries cannot be switched off through the constructor: a
    [maxRetries] of 0 is read like a missing one, so the scraper still allows
    2 retries and fetches a target that always fails three times. *)
Theorem zero_maxRetries_means_two :
  forall (cfg : Scraper.EmailScraperConfig) (fetch : nat -> FetchSettled)
         (url : string),
    Scraper.opt_maxRetries cfg = Some 0 \/ Scraper.opt_maxRetries cfg = None ->
    (forall n, classify (fetch n) <> Success) ->
    Scraper.maxRetries (Scraper.config (Scraper.new_EmailScraper cfg)) = 2 /\
    exists result trace,
      Scraper.processSite (Scraper.new_EmailScraper cfg) fetch url
      = Some (result, trace) /\
      fetch_count trace = 3%nat /\ Scraper.success result = false.
Proof.
  intros cfg fetch url Hcfg Hfail.
  assert (Hm : Scraper.maxRetries (Scraper.config (Scraper.new_EmailScraper cfg)) = 2).
  { cbn. destruct Hcfg as [-> | ->]; reflexivity. }
  split; [exact Hm|].
  destruct (processSite_exhausts (Scraper.new_EmailScraper cfg) fetch url)
    as (e & _ & Hrun).
  - rewrite Hm. lia.
  - intros j _. now apply not_success_throws.
  - rewrite Hm in Hrun. eexists. eexists. split; [exact Hrun|].
    split; [apply fetch_count_attempts | reflexivity].
Qed.

Lemma zero_maxRetries_means_two_witness :
  Scraper.maxRetries
    (Scraper.config
       (Scraper.new_EmailScraper
          (Scraper.mkOptions None None (Some 0) None None None))) = 2 /\
  exists result trace,
    Scraper.processSite
      (Scraper.new_EmailScraper (Scraper.mkOptions None None (Some 0) None None None))
      always_rejects "http://slow.test"
    = Some (result, trace) /\
    fetch_count trace = 3%nat /\ Scraper.success result = false.
Proof.
  apply (zero_maxRetries_means_two
           (Scraper.mkOptions None None (Some 0) None None None)
           always_rejects "http://slow.test").
  - left. reflexivity.
  - intros n. discriminate.
Defined.


(** ** [chunkArray] and [scrapeEmails] *)

Lemma chunks_of_length {A} (size : nat) (l : list A) :
  (1 <= size)%nat ->
  List.length (chunks_of size l) = ((List.length l + size - 1) / size)%nat.
Proof.
  intros Hs. induction l as [|l Hne IH] using (chunks_ind size Hs).
  - cbn. symmetry. apply Nat.div_small. lia.
  - rewrite chunks_of_cons by assumption. cbn [List.length]. rewrite IH.
    rewrite length_skipn.
    assert (Hl : (1 <= List.length l)%nat) by (destruct l; [congruence | cbn; lia]).
    destruct (Nat.le_gt_cases (List.length l) size) as [Hshort | Hlong].
    + replace (List.length l - size)%nat with 0%nat by lia.
      rewrite (Nat.div_small (0 + size - 1)) by lia.
      apply (Nat.div_unique _ _ 1 (List.length l - 1)); lia.
    + replace (List.length l + size - 1)%nat
        with ((List.length l - size + size - 1) + 1 * size)%nat by lia.
      rewrite Nat.div_add by lia. lia.
Qed.

(** X8.  For a positive [size], [chunkArray] cuts the array into consecutive
    chunks: put end to end they give the array back, none is empty, all but
    the last have exactly [size] elements, and there are
    ceil(length / size) of them. *)
Theorem chunkArray_consecutive_chunks :
  forall (A : Type) (array : list A) (size : Z),
    1 <= size ->
    exists chunks,
      Scraper.chunkArray array size = Some chunks /\
      List.concat chunks = array /\
      Forall (fun c => 1 <= List.length c <= Z.to_nat size)%nat chunks /\
      Forall (fun c => List.length c = Z.to_nat size) (removelast chunks) /\
      Z.of_nat (List.length chunks) = (Z.of_nat (List.length array) + size - 1) / size.
Proof.
  intros A array size Hsize.
  assert (Hpos : (1 <= Z.to_nat size)%nat) by lia.
  exists (chunks_of (Z.to_nat size) array).
  split; [now apply chunkArray_spec|].
  split; [now apply chunks_of_concat|].
  split; [now apply chunks_of_sizes|].
  split; [now apply chunks_of_full|].
  rewrite chunks_of_length by exact Hpos.
  rewrite Nat2Z.inj_div. f_equal; lia.
Qed.

Lemma chunkArray_consecutive_chunks_witness :
  exists chunks,
    Scraper.chunkArray three_sites 2 = Some chunks /\
    List.concat chunks = three_sites /\
    Forall (fun c => 1 <= List.length c <= Z.to_nat 2)%nat chunks /\
    Forall (fun c => List.length c = Z.to_nat 2) (removelast chunks) /\
    Z.of_nat (List.length chunks) = (Z.of_nat (List.length three_sites) + 2 - 1) / 2.
Proof.
  apply (chunkArray_consecutive_chunks Scraper.Site three_sites 2). lia.
Defined.

(** X9.  A negative [concurrency] makes [scrapeEmails] hang before any
    fetch: the loop of [chunkArray] never reaches the end of a non-empty
    list of sites, however long it runs. *)
Theorem negative_concurrency_never_returns :
  forall (self : Scraper.EmailScraper) (sites : list Scraper.Site),
    Scraper.concurrency (Scraper.config self) < 0 ->
    sites <> [] ->
    (forall fuel,
        Scraper.chunk_loop fuel sites (Scraper.concurrency (Scraper.config self)) 0 []
        = None) /\
    (forall net schedule, Scraper.scrapeEmails self net schedule sites = None).
Proof.
  intros self sites Hneg Hne.
  assert (H : forall fuel,
             Scraper.chunk_loop fuel sites
                                (Scraper.concurrency (Scraper.config self)) 0 [] = None).
  { intros fuel. apply chunk_loop_diverges; auto; lia. }
  split; [exact H|]. intros net schedule.
  unfold Scraper.scrapeEmails, Scraper.scrapeEmails_start, Scraper.chunkArray.
  now rewrite H.
Qed.

Lemma negative_concurrency_never_returns_witness :
  (forall fuel,
      Scraper.chunk_loop
        fuel three_sites
        (Scraper.concurrency
           (Scraper.config
              (Scraper.new_EmailScraper
                 (Scraper.mkOptions (Some (-1)) None None None None None)))) 0 []
      = None) /\
  (forall net schedule,
      Scraper.scrapeEmails
        (Scraper.new_EmailScraper
           (Scraper.mkOptions (Some (-1)) None None None None None))
        net schedule three_sites = None).
Proof.
  apply (negative_concurrency_never_returns
           (Scraper.new_EmailScraper
              (Scraper.mkOptions (Some (-1)) None None None None None))
           three_sites).
  - reflexivity.
  - discriminate.
Defined.

(** X10.  Without sites [scrapeEmails] returns the empty list at once,
    whatever the configuration. *)
Theorem scrapeEmails_without_sites :
  forall (self : Scraper.EmailScraper) (net : Scraper.Net) (schedule : list nat),
    Scraper.scrapeEmails self net schedule [] = Some [].
Proof.
  intros self net schedule. unfold Scraper.scrapeEmails. cbn.
  now rewrite scrape_run_idle.
Qed.

Lemma drain_perm {A} (schedule : list nat) : forall pending : list A,
  List.length schedule = List.length pending ->
  Permutation (drain schedule pending) pending.
Proof.
  induction schedule as [|c schedule IH]; intros pending Hlen.
  - destruct pending; [constructor | discriminate].
  - assert (Hne : pending <> []) by (destruct pending; [discriminate | congruence]).
    destruct (mod_pending_lt pending c Hne) as [x Hx].
    destruct (remove_at_perm _ _ _ Hx) as [Hrm Hl].
    cbn [drain]. rewrite Hx.
    eapply Permutation_trans; [|exact Hrm]. constructor.
    apply IH. cbn [List.length] in Hlen. lia.
Qed.

Lemma settle_orders_perm {A} (chunks : list (list A)) : forall schedule,
  List.length schedule = List.length (List.concat chunks) ->
  Forall2 (@Permutation A) (settle_orders schedule chunks) chunks.
Proof.
  induction chunks as [|chunk rest IH]; intros schedule Hlen; cbn [settle_orders];
    [constructor|].
  cbn [List.concat] in Hlen. rewrite length_app in Hlen.
  constructor.
  - apply drain_perm. rewrite length_firstn. lia.
  - apply IH. rewrite length_skipn. lia.
Qed.

(** A run from the middle of a chunk: the promises still pending settle in
    the order the schedule picks them, then the later chunks follow, and at
    the end the results are returned. *)
Lemma run_settle_order self net schedule : forall results pending batches,
  pending <> [] ->
  Forall (fun b : list Scraper.Site =>
            1 <= List.length b
            <= Z.to_nat (Scraper.concurrency (Scraper.config self)))%nat batches ->
  List.length schedule
  = (List.length pending + List.length (List.concat batches))%nat ->
  let final := Scraper.run self net schedule
                           (Scraper.mkScrape results pending batches None) in
  Scraper.returned final = Some (Scraper.results final) /\
  map Some (Scraper.results final)
  = map Some results
    ++ map (site_result self net)
           (drain (firstn (List.length pending) schedule) pending
            ++ List.concat (settle_orders (skipn (List.length pending) schedule)
                                          batches)).
Proof.
  induction schedule as [|c schedule IH]; intros results pending batches Hne Hb Hlen.
  - destruct pending; [congruence | discriminate].
  - destruct (mod_pending_lt pending c Hne) as [site Hsite].
    destruct (remove_at_perm _ _ _ Hsite) as [_ Hl].
    destruct (processSite_total self (net (Scraper.link site)) (Scraper.link site))
      as (r & t & Hrun).
    assert (Hr : site_result self net site = Some r)
      by (unfold site_result; now rewrite Hrun).
    cbn [Scraper.run]. unfold Scraper.settle. scrape_fields.
    rewrite Hsite, Hrun.
    assert (Hfirst : firstn (List.length pending) (c :: schedule)
                     = c :: firstn (List.length pending - 1) schedule).
    { rewrite <- Hl. cbn [firstn]. do 2 f_equal. lia. }
    assert (Hskip : skipn (List.length pending) (c :: schedule)
                    = skipn (List.length pending - 1) schedule).
    { rewrite <- Hl. cbn [skipn]. f_equal. lia. }
    rewrite Hfirst, Hskip. cbn [drain]. rewrite Hsite.
    cbn [List.length] in Hlen.
    set (others := Scraper.remove_at (c mod List.length pending) pending) in *.
    replace (List.length pending - 1)%nat with (List.length others) by lia.
    destruct others as [|y others'] eqn:Eo.
    + cbn [List.length firstn skipn drain app] in *.
      rewrite (next_batch_nonempty self) by exact Hb.
      destruct batches as [|b rest].
      * cbn [List.concat List.length] in Hlen.
        destruct schedule; [|cbn [List.length] in Hlen; lia].
        cbn [Scraper.run settle_orders List.concat]. scrape_fields.
        split; [reflexivity|]. rewrite map_app. cbn [map]. now rewrite Hr.
      * inversion_clear Hb as [|? ? Hb1 Hb2].
        cbn [List.concat] in Hlen. rewrite length_app in Hlen.
        destruct (IH (results ++ [r]) b rest) as [Hret Hres]; auto.
        { destruct b; [cbn in Hb1; lia | discriminate]. }
        { lia. }
        split; [exact Hret|]. rewrite Hres.
        cbn [settle_orders List.concat map app]. rewrite Hr.
        repeat rewrite map_app. repeat rewrite <- app_assoc.
        cbn [map app]. reflexivity.
    + destruct (IH (results ++ [r]) (y :: others') batches) as [Hret Hres]; auto.
      { discriminate. }
      { lia. }
      split; [exact Hret|]. rewrite Hres.
      cbn [map app]. rewrite Hr.
      repeat rewrite map_app. repeat rewrite <- app_assoc.
      cbn [map app]. reflexivity.
Qed.

(** X11.  [scrapeEmails] keeps the order of the chunks and, inside a chunk,
    the order of settlement: the results are those of the first chunk in the
    order in which its promises settled, then those of the second chunk in
    the order in which its promises settled, and so on; every chunk is
    there in full.  (With [concurrency] 1 this is the order of the sites.) *)
Theorem scrapeEmails_results_chunk_by_chunk :
  forall (self : Scraper.EmailScraper) (net : Scraper.Net)
         (sites : list Scraper.Site) (schedule : list nat),
    1 <= Scraper.concurrency (Scraper.config self) ->
    List.length schedule = List.length sites ->
    let chunks :=
      chunks_of (Z.to_nat (Scraper.concurrency (Scraper.config self))) sites in
    exists rs,
      Scraper.scrapeEmails self net schedule sites = Some rs /\
      map Some rs
      = map (site_result self net) (List.concat (settle_orders schedule chunks)) /\
      Forall2 (@Permutation Scraper.Site) (settle_orders schedule chunks) chunks.
Proof.
  intros self net sites schedule Hc Hlen chunks.
  assert (Hpos : (1 <= Z.to_nat (Scraper.concurrency (Scraper.config self)))%nat)
    by lia.
  pose proof (chunks_of_sizes _ Hpos sites) as Hsizes.
  pose proof (chunks_of_concat _ Hpos sites) as Hcat.
  fold chunks in Hsizes, Hcat.
  assert (Hperm : Forall2 (@Permutation Scraper.Site)
                          (settle_orders schedule chunks) chunks)
    by (apply settle_orders_perm; now rewrite Hcat).
  unfold Scraper.scrapeEmails, Scraper.scrapeEmails_start.
  rewrite chunkArray_spec by exact Hc. cbn [option_map]. fold chunks.
  rewrite (next_batch_nonempty self) by exact Hsizes.
  destruct chunks as [|b rest] eqn:Echunks.
  - cbn [List.concat] in Hcat. subst sites.
    destruct schedule; [|discriminate].
    exists []. cbn. repeat split; auto.
  - inversion_clear Hsizes as [|? ? Hb Hrest].
    destruct (run_settle_order self net schedule [] b rest) as [Hret Hres]; auto.
    { destruct b; [cbn in Hb; lia | discriminate]. }
    { rewrite Hlen, <- Hcat. cbn [List.concat]. now rewrite length_app. }
    eexists. split; [exact Hret|]. split; [|exact Hperm].
    rewrite Hres. reflexivity.
Qed.

Lemma scrapeEmails_results_chunk_by_chunk_witness :
  let chunks :=
    chunks_of (Z.to_nat (Scraper.concurrency (Scraper.config pair_scraper)))
              three_sites in
  exists rs,
    Scraper.scrapeEmails pair_scraper net_404 [1; 0; 0]%nat three_sites = Some rs /\
    map Some rs
    = map (site_result pair_scraper net_404)
          (List.concat (settle_orders [1; 0; 0]%nat chunks)) /\
    Forall2 (@Permutation Scraper.Site) (settle_orders [1; 0; 0]%nat chunks) chunks.
Proof.
  apply (scrapeEmails_results_chunk_by_chunk
           pair_scraper net_404 three_sites [1; 0; 0]%nat).
  - vm_compute. discriminate.
  - reflexivity.
Defined.

(** With the schedule [1; 0; 0] and chunks of two, site B settles before
    site A, and site C, of the second chunk, comes last. *)
Example settle_orders_of_three_sites :
  settle_orders [1; 0; 0]%nat (chunks_of 2 three_sites)
  = [ [ Scraper.mkSite "B" "http://b.test"; Scraper.mkSite "A" "http://a.test" ];
      [ Scraper.mkSite "C" "http://c.test" ] ].
Proof. reflexivity. Qed.

(** ** [scrapeEmailsFromUrl] *)

Lemma scrapeEmailsFromUrl_cases net url :
  (Js.startsWith url "http" = false /\ Batch.scrapeEmailsFromUrl net url = ([], [])) \/
  (Js.startsWith url "http" = true /\
   snd (Batch.scrapeEmailsFromUrl net url) = [EvFetch url] /\
   (fst (Batch.scrapeEmailsFromUrl net url) = [] \/
    exists status body,
      net url = Responds status (TextOk body) /\ response_ok status = true /\
      fst (Batch.scrapeEmailsFromUrl net url) = Batch.extractEmails body)).
Proof.
  unfold Batch.scrapeEmailsFromUrl, Batch.safeFetch.
  destruct (Js.startsWith url "http") eqn:Hs.
  - right. split; [reflexivity|].
    assert (Ht : Js.truthy url = true) by (destruct url; [discriminate | reflexivity]).
    rewrite Ht. cbn [negb orb].
    destruct (net url) as [status [body | e] | why e]; cbn [fst snd]; auto;
      destruct (response_ok status) eqn:Hok; cbn [negb fst snd]; auto.
    split; [reflexivity|]. right. eauto.
  - left. split; [reflexivity|]. now rewrite orb_true_r.
Qed.


(** ** [runWithConcurrency]: when it resolves, and in which order *)

Section RunnerOrder.
Context {T R : Type}.
Variable items : list T.
Variable handler : T -> Batch.Settled R.

Local Abbreviation pushed k := (flat_map (fulfilled_at items handler) (seq 0 k)).

Lemma sequential_settle (k choice : nat) :
  (k < List.length items)%nat ->
  Batch.settle items handler choice (Batch.mkRun (pushed k) 1 (S k) [k] None)
  = if (List.length items <=? S k)%nat
    then Batch.mkRun (pushed (S k)) 0 (S k) [] (Some (pushed (S k)))
    else Batch.mkRun (pushed (S k)) 1 (S (S k)) [S k] None.
Proof.
  intros Hk. unfold Batch.settle. run_fields. cbn [List.length].
  rewrite Nat.mod_1_r. cbn [nth_error].
  unfold Batch.resume, Batch.runNext, Batch.resolve. run_fields.
  assert (Hpush :
            match nth_error items k with
            | Some item =>
                match handler item with
                | Batch.Fulfilled result => pushed k ++ [result]
                | Batch.Thrown _ => pushed k
                end
            | None => pushed k
            end = pushed (S k)).
  { rewrite seq_S, flat_map_app. cbn [Nat.add flat_map]. rewrite app_nil_r.
    set (P := pushed k). unfold fulfilled_at, fulfilled.
    destruct (nth_error items k); [|now rewrite app_nil_r].
    destruct (handler t); [reflexivity | now rewrite app_nil_r]. }
  rewrite Hpush. cbn [Scraper.remove_at firstn skipn app Z.sub Z.add Z.eqb].
  reflexivity.
Qed.

Lemma sequential_run schedule : forall k,
  (k < List.length items)%nat ->
  (k + List.length schedule = List.length items)%nat ->
  Batch.run items handler schedule (Batch.mkRun (pushed k) 1 (S k) [k] None)
  = Batch.mkRun (pushed (List.length items)) 0 (List.length items) []
                (Some (pushed (List.length items))).
Proof.
  induction schedule as [|c schedule IH]; intros k Hk Hlen; cbn [List.length] in Hlen;
    [lia|].
  cbn [Batch.run]. rewrite sequential_settle by exact Hk.
  destruct (Nat.leb_spec (List.length items) (S k)).
  - assert (Hend : S k = List.length items) by lia.
    destruct schedule; [|cbn [List.length] in Hlen; lia].
    cbn [Batch.run]. now rewrite <- Hend.
  - apply IH; lia.
Qed.

End RunnerOrder.

Lemma runner_sequential {T R} (items : list T) (handler : T -> Batch.Settled R)
      (choose : nat -> nat) :
  items <> [] ->
  Batch.runWithConcurrency items handler 1 choose
  = Some (flat_map (fulfilled handler) items).
Proof.
  intros Hne.
  assert (Hn : (1 <= List.length items)%nat)
    by (destruct items; [congruence | cbn; lia]).
  unfold Batch.runWithConcurrency. rewrite start_state.
  replace (Z.to_nat (Z.min 1 (Z.of_nat (List.length items)))) with 1%nat by lia.
  change (Batch.mkRun [] (Z.of_nat 1) 1 (seq 0 1) None)
    with (Batch.mkRun (flat_map (fulfilled_at items handler) (seq 0 0)) 1 1 [0%nat]
                      (@None (list R))).
  rewrite sequential_run; [| lia | rewrite choices_length; lia].
  cbn [Batch.resolved]. now rewrite fulfilled_seq.
Qed.

(** X13.  With a limit of 1 the runner is sequential: the promise resolves
    with the results in the order of the items (those of the fulfilled
    handler calls), whatever the timing; when no call throws, that is one
    result per item, in order. *)
Theorem limit_one_keeps_item_order :
  forall (T R : Type) (items : list T) (handler : T -> Batch.Settled R)
         (choose : nat -> nat),
    items <> [] ->
    Batch.runWithConcurrency items handler 1 choose
    = Some (flat_map (fulfilled handler) items) /\
    forall value : T -> R,
      (forall item, handler item = Batch.Fulfilled (value item)) ->
      Batch.runWithConcurrency items handler 1 choose = Some (map value items).
Proof.
  intros T R items handler choose Hne.
  pose proof (runner_sequential items handler choose Hne) as Hrun.
  split; [exact Hrun|]. intros value Hvalue. rewrite Hrun. f_equal.
  clear Hrun Hne. induction items as [|x l IH]; [reflexivity|].
  cbn [flat_map map]. unfold fulfilled at 1. now rewrite Hvalue, IH.
Qed.

Lemma limit_one_keeps_item_order_witness :
  Batch.runWithConcurrency [1; 2; 3; 4; 5] flaky_handler 1 (fun k => (7 * k)%nat)
  = Some (flat_map (fulfilled flaky_handler) [1; 2; 3; 4; 5]) /\
  forall value : Z -> Z,
    (forall item, flaky_handler item = Batch.Fulfilled (value item)) ->
    Batch.runWithConcurrency [1; 2; 3; 4; 5] flaky_handler 1 (fun k => (7 * k)%nat)
    = Some (map value [1; 2; 3; 4; 5]).
Proof.
  apply (limit_one_keeps_item_order Z Z [1; 2; 3; 4; 5] flaky_handler).
  discriminate.
Defined.

(** X14.  With a target and a positive limit, the promise of
    [runWithConcurrency] is resolved exactly from the moment every worker has
    settled: not before as many settlements as there are items, and from
    then on with no worker active and every item started. *)
Theorem resolves_exactly_when_all_settled :
  forall (T R : Type) (items : list T) (handler : T -> Batch.Settled R)
         (limit : Z) (schedule : list nat),
    items <> [] ->
    1 <= limit ->
    let st := Batch.run items handler schedule (Batch.start items limit) in
    (Batch.resolved st <> None <-> (List.length items <= List.length schedule)%nat) /\
    (Batch.resolved st <> None ->
     Batch.resolved st = Some (Batch.results st) /\
     Batch.activeCount st = 0 /\ Batch.pending st = [] /\
     Batch.index st = List.length items).
Proof.
  intros T R items handler limit schedule Hne Hlimit st.
  assert (HL : (1 <= Z.to_nat (Z.min limit (Z.of_nat (List.length items))))%nat).
  { destruct items; [congruence|]. cbn [List.length]. lia. }
  destruct (inv_reachable items handler limit schedule) as [done Hinv].
  pose proof (run_work_left items handler limit schedule _ _ HL
                            (inv_start items handler limit)) as Hwork.
  rewrite start_work_left in Hwork. fold st in Hinv, Hwork.
  unfold work_left in Hwork.
  destruct Hinv as [Hact _ Hidx _ Hwin _ Hres].
  assert (Hdone : Batch.resolved st <> None ->
                  Batch.resolved st = Some (Batch.results st) /\
                  Batch.activeCount st = 0 /\ Batch.pending st = [] /\
                  Batch.index st = List.length items).
  { intros Hsome. destruct (Batch.resolved st) as [rs|]; [|congruence].
    destruct Hres as (-> & Hp & Hi). rewrite Hact, Hp. auto. }
  split; [|exact Hdone]. split.
  - intros Hsome. destruct (Hdone Hsome) as (_ & _ & Hp & Hi).
    rewrite Hp, Hi in Hwork. cbn [List.length] in Hwork. lia.
  - intros Hlen Hnone. rewrite Hnone in Hres.
    assert (Hp : Batch.pending st = [])
      by (destruct (Batch.pending st); [reflexivity | cbn [List.length] in Hwork; lia]).
    specialize (Hres Hp). lia.
Qed.

Lemma resolves_exactly_when_all_settled_witness :
  let st := Batch.run [1; 2; 3; 4; 5] flaky_handler [1; 0; 0]%nat
                      (Batch.start [1; 2; 3; 4; 5] 2) in
  (Batch.resolved st <> None
   <-> (List.length [1; 2; 3; 4; 5] <= List.length [1; 0; 0]%nat)%nat) /\
  (Batch.resolved st <> None ->
   Batch.resolved st = Some (Batch.results st) /\
   Batch.activeCount st = 0 /\ Batch.pending st = [] /\
   Batch.index st = List.length [1; 2; 3; 4; 5]).
Proof.
  apply (resolves_exactly_when_all_settled
           Z Z [1; 2; 3; 4; 5] flaky_handler 2 [1; 0; 0]%nat).
  - discriminate.
  - lia.
Defined.

(** X15.  With a limit of zero or less no worker is ever started: whatever
    the items, the handler is never called and the promise stays pending. *)
Theorem no_limit_no_worker :
  forall (T R : Type) (items : list T) (handler : T -> Batch.Settled R)
         (limit : Z) (schedule : list nat),
    limit <= 0 ->
    Batch.run items handler schedule (Batch.start items limit) = Batch.init /\
    (forall choose, Batch.runWithConcurrency items handler limit choose = None).
Proof.
  intros T R items handler limit schedule Hlimit.
  split.
  - apply runner_stuck. lia.
  - intros choose. unfold Batch.runWithConcurrency.
    rewrite runner_stuck by lia. reflexivity.
Qed.

Lemma no_limit_no_worker_witness :
  Batch.run [1; 2; 3; 4; 5] flaky_handler [0; 1]%nat (Batch.start [1; 2; 3; 4; 5] 0)
  = Batch.init /\
  (forall choose, Batch.runWithConcurrency [1; 2; 3; 4; 5] flaky_handler 0 choose = None).
Proof.
  apply (no_limit_no_worker Z Z [1; 2; 3; 4; 5] flaky_handler 0 [0; 1]%nat). lia.
Defined.


(** ** [processUrlBatch]: sizes that hang, counts, provenance, order *)

Lemma batch_loop_bad_size net choose links batchSize concurrency delay :
  batchSize <= 0 -> links <> [] ->
  forall fuel i allResults trace,
    i <= 0 ->
    Batch.batch_loop fuel net choose links batchSize concurrency delay
                     i allResults trace = None.
Proof.
  intros Hsize Hne.
  assert (0 < Z.of_nat (List.length links)) by (destruct links; [congruence | cbn; lia]).
  induction fuel as [|fuel IH]; intros i allResults trace Hi;
    cbn [Batch.batch_loop];
    destruct (Z.ltb_spec i (Z.of_nat (List.length links))); try lia; auto.
  destruct (Batch.runWithConcurrency _ _ _ _); [|reflexivity].
  apply IH. lia.
Qed.

Lemma batch_loop_bad_limit net choose links batchSize concurrency delay :
  concurrency <= 0 ->
  forall fuel i allResults trace,
    i < Z.of_nat (List.length links) ->
    Batch.batch_loop fuel net choose links batchSize concurrency delay
                     i allResults trace = None.
Proof.
  intros Hc fuel i allResults trace Hi.
  destruct fuel as [|fuel]; cbn [Batch.batch_loop];
    destruct (Z.ltb_spec i (Z.of_nat (List.length links))); try lia; auto.
  unfold Batch.runWithConcurrency. rewrite runner_stuck by lia. reflexivity.
Qed.

(** X16.  [processUrlBatch] never returns for a non-empty list of links when
    [batchSize] or [concurrency] is zero or negative: the loop variable does
    not advance, or the first runner never resolves.  (The defaults apply to
    missing options only, so an explicit 0 is used as it is.) *)
Theorem processUrlBatch_never_returns :
  forall (net : Batch.Net) (choose : Z -> nat -> nat)
         (links : list Batch.LinkState) (options : Batch.Options),
    links <> [] ->
    Batch.default (Batch.batchSize options) 50 <= 0 \/
    Batch.default (Batch.concurrency options) 10 <= 0 ->
    (forall fuel,
        Batch.batch_loop fuel net choose links
                         (Batch.default (Batch.batchSize options) 50)
                         (Batch.default (Batch.concurrency options) 10)
                         (Batch.default (Batch.delayBetweenBatches options) 3000)
                         0 [] [] = None) /\
    Batch.processUrlBatch net choose links options = None.
Proof.
  intros net choose links options Hne Hbad.
  assert (H : forall fuel,
             Batch.batch_loop fuel net choose links
                              (Batch.default (Batch.batchSize options) 50)
                              (Batch.default (Batch.concurrency options) 10)
                              (Batch.default (Batch.delayBetweenBatches options) 3000)
                              0 [] [] = None).
  { intros fuel. destruct Hbad as [Hsize | Hconc].
    - apply batch_loop_bad_size; auto; lia.
    - apply batch_loop_bad_limit; auto.
      destruct links; [congruence | cbn; lia]. }
  split; [exact H | apply H].
Qed.

Lemma processUrlBatch_never_returns_witness :
  (forall fuel,
      Batch.batch_loop fuel sample_net oldest_first five_links
                       (Batch.default (Batch.batchSize (Batch.mkOptions (Some 0) None None)) 50)
                       (Batch.default (Batch.concurrency (Batch.mkOptions (Some 0) None None)) 10)
                       (Batch.default
                          (Batch.delayBetweenBatches (Batch.mkOptions (Some 0) None None)) 3000)
                       0 [] [] = None) /\
  Batch.processUrlBatch sample_net oldest_first five_links
                        (Batch.mkOptions (Some 0) None None) = None.
Proof.
  apply (processUrlBatch_never_returns
           sample_net oldest_first five_links (Batch.mkOptions (Some 0) None None)).
  - discriminate.
  - left. vm_compute. discriminate.
Defined.

Lemma separated_counts (delay : Z) (chunks : list (list Batch.LinkState)) :
  List.length (filter is_run_batch
                      (separated_by (Batch.Idle delay) (map Batch.RunBatch chunks)))
  = List.length chunks /\
  filter is_idle (separated_by (Batch.Idle delay) (map Batch.RunBatch chunks))
  = repeat (Batch.Idle delay) (Nat.pred (List.length chunks)).
Proof.
  induction chunks as [|c [|c' chunks] IH]; [split; reflexivity | split; reflexivity |].
  destruct IH as [IHrun IHidle].
  change (separated_by (Batch.Idle delay) (map Batch.RunBatch (c :: c' :: chunks)))
    with (Batch.RunBatch c :: Batch.Idle delay
            :: separated_by (Batch.Idle delay) (map Batch.RunBatch (c' :: chunks))).
  cbn [filter is_run_batch is_idle List.length]. rewrite IHrun, IHidle.
  split; reflexivity.
Qed.

(** X17.  [processUrlBatch] runs ceil(links / batchSize) batches, the number
    its log announces, and pauses once less than that, each time for
    [delayBetweenBatches]. *)
Theorem processUrlBatch_batch_count :
  forall (net : Batch.Net) (choose : Z -> nat -> nat)
         (links : list Batch.LinkState) (options : Batch.Options),
    let size := Batch.default (Batch.batchSize options) 50 in
    let delay := Batch.default (Batch.delayBetweenBatches options) 3000 in
    1 <= size ->
    1 <= Batch.default (Batch.concurrency options) 10 ->
    exists results trace,
      Batch.processUrlBatch net choose links options = Some (results, trace) /\
      Z.of_nat (List.length (filter is_run_batch trace))
      = (Z.of_nat (List.length links) + size - 1) / size /\
      filter is_idle trace
      = repeat (Batch.Idle delay) (Nat.pred (List.length (filter is_run_batch trace))).
Proof.
  intros net choose links options size delay Hsize Hconc.
  destruct (processUrlBatch_spec net choose links options Hsize Hconc)
    as (results & Hrun & _).
  eexists. eexists. split; [exact Hrun|].
  destruct (separated_counts (Batch.default (Batch.delayBetweenBatches options) 3000)
                             (chunks_of (Z.to_nat size) links)) as [Hruns Hidles].
  fold size. rewrite Hruns, Hidles. split; [|reflexivity].
  rewrite chunks_of_length by lia. rewrite Nat2Z.inj_div. f_equal; lia.
Qed.

Lemma processUrlBatch_batch_count_witness :
  exists results trace,
    Batch.processUrlBatch sample_net oldest_first five_links batches_of_two
    = Some (results, trace) /\
    Z.of_nat (List.length (filter is_run_batch trace))
    = (Z.of_nat (List.length five_links) + 2 - 1) / 2 /\
    filter is_idle trace
    = repeat (Batch.Idle 3000) (Nat.pred (List.length (filter is_run_batch trace))).
Proof.
  apply (processUrlBatch_batch_count sample_net oldest_first five_links batches_of_two).
  - vm_compute. discriminate.
  - vm_compute. discriminate.
Defined.

(** X18.  Every entry of the report comes from one of the links: a link
    whose URL starts with ["http"] and was answered with a 2xx status and a
    readable body; the entry carries that link's title and URL and the
    addresses extracted from that body, of which there is at least one. *)
Theorem report_entries_come_from_answered_links :
  forall (net : Batch.Net) (choose : Z -> nat -> nat)
         (links : list Batch.LinkState) (options : Batch.Options),
    1 <= Batch.default (Batch.batchSize options) 50 ->
    1 <= Batch.default (Batch.concurrency options) 10 ->
    exists results trace,
      Batch.processUrlBatch net choose links options = Some (results, trace) /\
      forall r, In r results ->
        exists item status body,
          In item links /\
          Js.startsWith (Batch.link item) "http" = true /\
          net (Batch.link item) = Responds status (TextOk body) /\
          response_ok status = true /\
          r = Batch.mkScraped (Batch.title item) (Batch.link item)
                              (Batch.extractEmails body) /\
          Batch.extractEmails body <> [].
Proof.
  intros net choose links options Hsize Hconc.
  destruct (processUrlBatch_spec net choose links options Hsize Hconc)
    as (results & Hrun & Hperm).
  eexists. eexists. split; [exact Hrun|].
  intros r Hin. apply (Permutation_in _ Hperm) in Hin.
  apply filter_In in Hin. destruct Hin as [Hin Hmail].
  apply in_map_iff in Hin. destruct Hin as (item & <- & Hitem).
  apply has_emails_iff in Hmail.
  unfold scraped, Batch.fetchEmails in *. cbn [Batch.emails] in Hmail.
  destruct (scrapeEmailsFromUrl_cases net (Batch.link item))
    as [[_ Hnone] | (Hs & _ & [Hnil | (status & body & Hnet & Hok & Hbody)])].
  - rewrite Hnone in Hmail. now contradiction Hmail.
  - now contradiction Hmail.
  - exists item, status, body. rewrite Hbody in *. repeat split; auto.
Qed.

Lemma report_entries_come_from_answered_links_witness :
  exists results trace,
    Batch.processUrlBatch sample_net oldest_first five_links batches_of_two
    = Some (results, trace) /\
    forall r, In r results ->
      exists item status body,
        In item five_links /\
        Js.startsWith (Batch.link item) "http" = true /\
        sample_net (Batch.link item) = Responds status (TextOk body) /\
        response_ok status = true /\
        r = Batch.mkScraped (Batch.title item) (Batch.link item)
                            (Batch.extractEmails body) /\
        Batch.extractEmails body <> [].
Proof.
  apply (report_entries_come_from_answered_links
           sample_net oldest_first five_links batches_of_two).
  - vm_compute. discriminate.
  - vm_compute. discriminate.
Defined.

Section SequentialOrchestrator.
Variable net : Batch.Net.
Variable choose : Z -> nat -> nat.
Variable links : list Batch.LinkState.
Variables batchSize delay : Z.
Hypothesis batchSize_pos : 1 <= batchSize.

(** With one worker at a time the loop collects the results in the order of
    the links. *)
Lemma batch_loop_sequential fuel : forall i allResults trace,
  0 <= i ->
  (List.length (skipn (Z.to_nat i) links) <= fuel)%nat ->
  exists trace',
    Batch.batch_loop fuel net choose links batchSize 1 delay i allResults trace
    = Some (allResults
              ++ filter Batch.has_emails (map (scraped net) (skipn (Z.to_nat i) links)),
            trace').
Proof.
  assert (Hsz : (1 <= Z.to_nat batchSize)%nat) by lia.
  induction fuel as [|fuel IH]; intros i allResults trace Hi Hfuel;
    pose proof Hfuel as Hlen; rewrite length_skipn in Hlen;
    cbn [Batch.batch_loop];
    destruct (Z.ltb_spec i (Z.of_nat (List.length links))) as [Hin | Hout];
    try lia.
  - exists trace. rewrite skipn_all2 by lia. cbn. now rewrite app_nil_r.
  - set (rest := skipn (Z.to_nat i) links) in *.
    assert (Hrest : List.length rest = (List.length links - Z.to_nat i)%nat)
      by (subst rest; apply length_skipn).
    assert (Hne : rest <> []) by (destruct rest; [cbn in Hrest; lia | discriminate]).
    rewrite slice_window by lia. fold rest.
    set (batch := firstn (Z.to_nat batchSize) rest).
    assert (Hbatch : batch <> []).
    { subst batch. destruct rest as [|x rest']; [congruence|].
      destruct (Z.to_nat batchSize); [lia | discriminate]. }
    rewrite runner_sequential by exact Hbatch.
    rewrite worker_fulfilled.
    assert (Hrest' : skipn (Z.to_nat (i + batchSize)) links
                     = skipn (Z.to_nat batchSize) rest).
    { subst rest. rewrite skipn_skipn. f_equal. lia. }
    pose proof (skipn_shorter (Z.to_nat batchSize) Hsz rest Hne) as Hshort.
    match goal with
    | |- context [Batch.batch_loop fuel _ _ _ _ _ _ _ ?all ?tr] =>
        destruct (IH (i + batchSize) all tr) as (trace' & Hloop);
        [lia | rewrite Hrest'; lia |]
    end.
    rewrite Hloop, Hrest'. exists trace'. f_equal. f_equal.
    rewrite <- app_assoc, <- filter_app, <- map_app. subst batch.
    now rewrite firstn_skipn.
  - exists trace. rewrite skipn_all2 by lia. cbn. now rewrite app_nil_r.
Qed.

End SequentialOrchestrator.

(** X19.  With [concurrency] 1 the report of [processUrlBatch] lists the
    targets that have an address in the order of the input, whatever the
    batch size. *)
Theorem sequential_report_keeps_input_order :
  forall (net : Batch.Net) (choose : Z -> nat -> nat)
         (links : list Batch.LinkState) (options : Batch.Options),
    1 <= Batch.default (Batch.batchSize options) 50 ->
    Batch.concurrency options = Some 1 ->
    exists trace,
      Batch.processUrlBatch net choose links options
      = Some (filter Batch.has_emails (map (scraped net) links), trace).
Proof.
  intros net choose links options Hsize Hconc.
  unfold Batch.processUrlBatch. rewrite Hconc. cbn [Batch.default].
  destruct (batch_loop_sequential net choose links
              (Batch.default (Batch.batchSize options) 50)
              (Batch.default (Batch.delayBetweenBatches options) 3000)
              Hsize (List.length links) 0 [] [])
    as (trace & Hloop); [lia | cbn; lia |].
  exists trace. exact Hloop.
Qed.

Lemma sequential_report_keeps_input_order_witness :
  exists trace,
    Batch.processUrlBatch sample_net oldest_first five_links
                          (Batch.mkOptions (Some 2) (Some 1) None)
    = Some (filter Batch.has_emails (map (scraped sample_net) five_links), trace).
Proof.
  apply (sequential_report_keeps_input_order
           sample_net oldest_first five_links (Batch.mkOptions (Some 2) (Some 1) None)).
  - vm_compute. discriminate.
  - reflexivity.
Defined.

(** ** The search endpoint *)

Lemma unique_by_link_spec (allResults : list Server.Website) : forall seen,
  NoDup (map Server.link (Server.unique_by_link seen allResults)) /\
  (forall w, In w (Server.unique_by_link seen allResults) ->
             In w allResults /\ ~ In (Server.link w) seen).
Proof.
  induction allResults as [|item rest IH]; intros seen; cbn [Server.unique_by_link].
  - split; [constructor | contradiction].
  - destruct (existsb (String.eqb (Server.link item)) seen) eqn:E.
    + destruct (IH seen) as [Hnd Hin]. split; [exact Hnd|].
      intros w Hw. destruct (Hin w Hw) as [Hr Hn]. split; [now right | exact Hn].
    + destruct (IH (Server.link item :: seen)) as [Hnd Hin]. split.
      * cbn [map]. constructor; [|exact Hnd].
        intros Hl. apply in_map_iff in Hl. destruct Hl as (w & Hlw & Hw).
        destruct (Hin w Hw) as [_ Hn]. apply Hn. left. congruence.
      * intros w [<- | Hw].
        -- split; [now left|]. intros Hs. apply existsb_eqb_In in Hs. congruence.
        -- destruct (Hin w Hw) as [Hr Hn]. split; [now right|].
           intros Hs. apply Hn. now right.
Qed.

Lemma collect_spec (organic : list Server.Organic) (w : Server.Website) :
  In w (Server.collect organic) ->
  In (Server.mkOrganic (Some (Server.title w)) (Some (Server.link w))) organic /\
  Server.title w <> "" /\ Server.link w <> "".
Proof.
  induction organic as [|item rest IH]; cbn [Server.collect]; intros H;
    [contradiction|].
  assert (Hrest : In w (Server.collect rest) ->
                  In (Server.mkOrganic (Some (Server.title w)) (Some (Server.link w)))
                     (item :: rest) /\
                  Server.title w <> "" /\ Server.link w <> "").
  { intros H'. destruct (IH H') as (Ho & Ht & Hl). split; [now right | auto]. }
  destruct item as [[t|] [l|]]; cbn [Server.o_title Server.o_link] in H; auto.
  destruct (andb (Js.truthy t) (Js.truthy l)) eqn:E; auto.
  destruct H as [<- | H]; auto.
  apply andb_true_iff in E. destruct E as [Ht Hl].
  cbn [Server.title Server.link].
  split; [now left|]. split; intros ->; discriminate.
Qed.

Lemma slice_front {A} (l : list A) (count : Z) :
  1 <= count -> Js.slice l 0 count = firstn (Z.to_nat count) l.
Proof.
  intros Hc. rewrite <- (Z.add_0_l count) at 1.
  rewrite slice_window by lia. reflexivity.
Qed.

Lemma NoDup_firstn {A} (n : nat) (l : list A) : NoDup l -> NoDup (firstn n l).
Proof.
  revert n. induction l as [|x l IH]; intros [|n] H; cbn; try constructor.
  - inversion_clear H as [|? ? Hx Hl]. intros Hin. apply Hx.
    rewrite <- (firstn_skipn n l). apply in_or_app. now left.
  - inversion_clear H. auto.
Qed.

(** X20.  [/getWebsites] rejects a request whose keyword or region is empty
    or whose count is 0, and answers with a server error when the search
    provider fails.  Otherwise, for a positive count, it returns at most
    [count] websites, no two with the same link, each with a non-empty title
    and link taken from an entry of the provider's results. *)
Theorem getWebsites_unique_links :
  forall (keyword region : string) (count : Z)
         (api : option (option (list Server.Organic))),
    (keyword = "" \/ region = "" \/ count = 0 ->
     Server.getWebsites keyword region count api = Server.BadRequest) /\
    (keyword <> "" -> region <> "" -> count <> 0 ->
     Server.getWebsites keyword region count None = Server.ServerError) /\
    (keyword <> "" -> region <> "" -> 1 <= count ->
     forall organic_results,
     exists websites,
       Server.getWebsites keyword region count (Some organic_results)
       = Server.Json websites /\
       Z.of_nat (List.length websites) <= count /\
       NoDup (map Server.link websites) /\
       forall w, In w websites ->
                 Server.title w <> "" /\ Server.link w <> "" /\
                 In (Server.mkOrganic (Some (Server.title w)) (Some (Server.link w)))
                    (Scraper.list_or organic_results [])).
Proof.
  intros keyword region count api.
  assert (Htruthy : forall s, s <> "" -> Js.truthy s = true)
    by (intros [|c s] H; [congruence | reflexivity]).
  split; [|split].
  - unfold Server.getWebsites. intros [-> | [-> | ->]]; cbn;
      rewrite ?orb_true_r; reflexivity.
  - intros Hk Hr Hc. unfold Server.getWebsites.
    rewrite (Htruthy _ Hk), (Htruthy _ Hr). cbn [negb orb].
    destruct (Z.eqb_spec count 0); [contradiction | reflexivity].
  - intros Hk Hr Hc organic_results. unfold Server.getWebsites.
    rewrite (Htruthy _ Hk), (Htruthy _ Hr). cbn [negb orb].
    destruct (Z.eqb_spec count 0); [lia|].
    eexists. split; [reflexivity|].
    rewrite slice_front by exact Hc.
    set (unique := Server.unique_by_link [] _).
    destruct (unique_by_link_spec (Server.collect (Scraper.list_or organic_results [])) [])
      as [Hnd Hin]. fold unique in Hnd, Hin.
    split; [rewrite length_firstn; lia|]. split.
    + rewrite <- firstn_map. now apply NoDup_firstn.
    + intros w Hw.
      assert (Hu : In w unique).
      { rewrite <- (firstn_skipn (Z.to_nat count) unique). apply in_or_app. now left. }
      destruct (Hin w Hu) as [Hc' _]. apply collect_spec in Hc'.
      destruct Hc' as (Ho & Ht & Hl). auto.
Qed.
